(** * Range-sum LRU cache (task_1.py) and sliding-window rate limiter
    (task_2.py): shallow embedding and verification

    The Python program keeps a mutable integer list (the store) and an
    [LRUCache] built on [collections.OrderedDict].  Python integers are
    unbounded, so they are [Z] here.  The ordered dictionary is an
    association list, oldest entry first, because the claims depend on the
    recency order.  Methods mutate their object and may raise; they are
    computations in a state monad that keeps the state reached when an
    exception is raised, as Python does. *)

From Stdlib Require Import ZArith Lia Floats.
From stdpp Require Import base decidable option list gmap strings.

Local Open Scope Z_scope.

(** ** Exceptions and the state monad *)

Inductive exn : Type :=
  | ValueError
  | IndexError
  | KeyError
  | OverflowError.

Inductive res (A : Type) : Type :=
  | Ok (a : A)
  | Raise (e : exn).
Arguments Ok {A} a.
Arguments Raise {A} e.

(** A computation over a mutable state [S]: the outcome and the state the
    object is left in (also when it raises). *)
Definition M (S A : Type) : Type := S -> res A * S.

#[global] Instance M_ret {S} : MRet (M S) :=
  fun A (a : A) (s : S) => (Ok a, s).

#[global] Instance M_bind {S} : MBind (M S) :=
  fun A B (f : A -> M S B) (m : M S A) (s : S) =>
    match m s with
    | (Ok a, s') => f a s'
    | (Raise e, s') => (Raise e, s')
    end.

Definition get_state {S} : M S S := fun s => (Ok s, s).
Definition set_state {S} (s : S) : M S unit := fun _ => (Ok tt, s).
Definition raise {S A} (e : exn) : M S A := fun s => (Raise e, s).

(** Lift a pure fallible result into the monad. *)
Definition of_res {S A} (r : res A) : M S A := fun s => (r, s).

(** [for x in xs: body(x)] *)
Fixpoint for_each {S A} (xs : list A) (body : A -> M S unit) : M S unit :=
  match xs with
  | [] => mret tt
  | x :: xs' => body x ;; for_each xs' body
  end.

(** ** Python lists of integers *)

(** Normalisation of one slice bound against a list of length [n]
    (CPython's [PySlice_AdjustIndices] with step 1). *)
Definition slice_index (n i : Z) : Z :=
  if i <? 0 then Z.max 0 (i + n) else Z.min i n.

(** [arr[start:stop]] *)
Definition list_slice (arr : list Z) (start stop : Z) : list Z :=
  let n := Z.of_nat (length arr) in
  let s := slice_index n start in
  let e := slice_index n stop in
  take (Z.to_nat (e - s)) (drop (Z.to_nat s) arr).

(** The builtin [sum(xs)]: a left fold from 0. *)
Definition sum (xs : list Z) : Z := fold_left Z.add xs 0.

(** [arr[index] = value]: negative indices count from the end; anything
    outside [-len, len) raises IndexError and leaves the list alone. *)
Definition list_setitem (index value : Z) (arr : list Z) : res (list Z) :=
  let n := Z.of_nat (length arr) in
  if bool_decide (0 <= index < n) then
    Ok (<[Z.to_nat index := value]> arr)
  else if bool_decide (- n <= index < 0) then
    Ok (<[Z.to_nat (index + n) := value]> arr)
  else Raise IndexError.

(** ** collections.OrderedDict as an association list, oldest first *)

Abbreviation odict K := (list (K * Z)).

Section OrderedDict.
Context {K : Type} `{EqDecision K}.

(** [key in od] *)
Definition od_contains (key : K) (od : odict K) : bool :=
  bool_decide (key ∈ od.*1).

(** The entries other than [key]'s, in their order. *)
Definition od_remove (key : K) (od : odict K) : odict K :=
  filter (fun e => e.1 <> key) od.

(** [od[key]] *)
Fixpoint od_getitem (key : K) (od : odict K) : res Z :=
  match od with
  | [] => Raise KeyError
  | (k, v) :: od' => if decide (k = key) then Ok v else od_getitem key od'
  end.

(** [od.move_to_end(key)] *)
Definition od_move_to_end (key : K) (od : odict K) : res (odict K) :=
  match od_getitem key od with
  | Ok v => Ok (od_remove key od ++ [(key, v)])
  | Raise e => Raise e
  end.

(** [od[key] = value]: an existing key keeps its position, a new key is
    appended. *)
Definition od_setitem (key : K) (value : Z) (od : odict K) : odict K :=
  if od_contains key od then
    (fun e : K * Z => if decide (e.1 = key) then (key, value) else e) <$> od
  else od ++ [(key, value)].

(** [od.popitem(last=False)] *)
Definition od_popitem_first (od : odict K) : res ((K * Z) * (odict K)) :=
  match od with
  | [] => Raise KeyError
  | e :: od' => Ok (e, od')
  end.

(** [del od[key]] *)
Definition od_delitem (key : K) (od : odict K) : res (odict K) :=
  if od_contains key od then Ok (od_remove key od) else Raise KeyError.

(** [od.keys()] *)
Definition od_keys (od : odict K) : list K := od.*1.
End OrderedDict.

(** ** class LRUCache *)

Record LRUCache (K : Type) : Type := mkLRUCache {
  capacity : Z;
  _od : odict K;
  hits : Z;
  misses : Z
}.
Arguments mkLRUCache {K} _ _ _ _.
Arguments capacity {K} _.
Arguments _od {K} _.
Arguments hits {K} _.
Arguments misses {K} _.

Section LRUCache.
Context {K : Type} `{EqDecision K}.

(** [LRUCache.__init__] *)
Definition LRUCache_init (cap : Z) : res (LRUCache K) :=
  if cap <=? 0 then Raise ValueError
  else Ok (mkLRUCache cap [] 0 0).

(** Run a dictionary operation on [self._od]. *)
Definition with_od {A} (f : odict K -> res (A * odict K)) : M (LRUCache K) A :=
  fun self =>
    match f (_od self) with
    | Ok (a, od') =>
        (Ok a, mkLRUCache (capacity self) od' (hits self) (misses self))
    | Raise e => (Raise e, self)
    end.

Definition update_od (f : odict K -> res (odict K)) : M (LRUCache K) unit :=
  with_od (fun od => match f od with
                     | Ok od' => Ok (tt, od')
                     | Raise e => Raise e
                     end).

Definition read_od {A} (f : odict K -> res A) : M (LRUCache K) A :=
  with_od (fun od => match f od with
                     | Ok a => Ok (a, od)
                     | Raise e => Raise e
                     end).

Definition incr_hits : M (LRUCache K) unit :=
  fun self =>
    (Ok tt, mkLRUCache (capacity self) (_od self) (hits self + 1) (misses self)).

Definition incr_misses : M (LRUCache K) unit :=
  fun self =>
    (Ok tt, mkLRUCache (capacity self) (_od self) (hits self) (misses self + 1)).

(** [LRUCache.get] *)
Definition get (key : K) : M (LRUCache K) Z :=
  self ← get_state;
  if od_contains key (_od self) then
    update_od (od_move_to_end key) ;;
    incr_hits ;;
    read_od (od_getitem key)
  else
    incr_misses ;;
    mret (-1).

(** [LRUCache.put] *)
Definition put (key : K) (value : Z) : M (LRUCache K) unit :=
  self ← get_state;
  (if od_contains key (_od self)
   then update_od (od_move_to_end key)
   else mret tt) ;;
  update_od (fun od => Ok (od_setitem key value od)) ;;
  self ← get_state;
  if Z.of_nat (length (_od self)) >? capacity self then
    _ ← with_od od_popitem_first; mret tt
  else mret tt.

(** [LRUCache.keys] *)
Definition keys (self : LRUCache K) : list K := od_keys (_od self).
End LRUCache.

(** ** The query engine: the array and the cache it is called with *)

Definition Key : Type := (Z * Z)%type.

Record World : Type := mkWorld {
  array : list Z;
  cache : LRUCache Key
}.

Definition on_cache {A} (m : M (LRUCache Key) A) : M World A :=
  fun w =>
    let '(r, c') := m (cache w) in (r, mkWorld (array w) c').

Definition on_array (f : list Z -> res (list Z)) : M World unit :=
  fun w =>
    match f (array w) with
    | Ok arr' => (Ok tt, mkWorld arr' (cache w))
    | Raise e => (Raise e, w)
    end.

(** [range_sum_no_cache] *)
Definition range_sum_no_cache (left right : Z) : M (list Z) Z :=
  arr ← get_state;
  mret (sum (list_slice arr left (right + 1))).

(** [update_no_cache] *)
Definition update_no_cache (index value : Z) : M (list Z) unit :=
  arr ← get_state;
  arr' ← of_res (list_setitem index value arr);
  set_state arr'.

(** [range_sum_with_cache] *)
Definition range_sum_with_cache (left right : Z) : M World Z :=
  let key := (left, right) in
  cached ← on_cache (get key);
  if bool_decide (cached <> -1) then mret cached
  else
    w ← get_state;
    let total := sum (list_slice (array w) left (right + 1)) in
    on_cache (put key total) ;;
    mret total.

(** The test [l <= index <= r] on a key [(l, r)]. *)
Definition overlaps (index : Z) (k : Key) : Prop := k.1 <= index <= k.2.

#[global] Instance overlaps_dec index k : Decision (overlaps index k).
Proof. unfold overlaps. apply _. Defined.

(** First loop of [update_with_cache]: the keys containing [index] are
    appended to [to_delete], in the order of [cache.keys()]. *)
Definition collect_to_delete (index : Z) (ks : list Key) : list Key :=
  fold_left
    (fun to_delete k =>
       if bool_decide (overlaps index k) then to_delete ++ [k] else to_delete)
    ks [].

(** Body of the second loop of [update_with_cache]:
    [if k in cache._od: del cache._od[k]]. *)
Definition delete_if_present (k : Key) : M World unit :=
  w ← get_state;
  if od_contains k (_od (cache w))
  then on_cache (update_od (od_delitem k))
  else mret tt.

(** [update_with_cache] *)
Definition update_with_cache (index value : Z) : M World unit :=
  on_array (list_setitem index value) ;;
  w ← get_state;
  let to_delete := collect_to_delete index (keys (cache w)) in
  for_each to_delete delete_if_present.

(** ** Vocabulary of the statements *)

(** What [put] leaves of a dictionary that outgrew the capacity: the oldest
    entry is dropped. *)
Definition evict {K} (cap : Z) (od : odict K) : odict K :=
  if Z.of_nat (length od) >? cap then tail od else od.

(** What the two loops of [update_with_cache] leave of the dictionary: the
    entries whose range does not contain [index], in their order. *)
Definition invalidate (index : Z) (od : odict Key) : odict Key :=
  filter (fun e => ~ overlaps index e.1) od.

Definition with_entries {K} (c : LRUCache K) (od : odict K) : LRUCache K :=
  mkLRUCache (capacity c) od (hits c) (misses c).

(** The calls a client can make on an array and its cache. *)
Inductive call : Type :=
  | CallGet (key : Key)
  | CallPut (key : Key) (value : Z)
  | CallRangeSum (left right : Z)
  | CallUpdate (index value : Z).

(** The array and the cache a call leaves behind, whether it returned or
    raised. *)
Definition state_after (c : call) (w : World) : World :=
  match c with
  | CallGet key => (on_cache (get key) w).2
  | CallPut key value => (on_cache (put key value) w).2
  | CallRangeSum l r => (range_sum_with_cache l r w).2
  | CallUpdate index value => (update_with_cache index value w).2
  end.

Definition after (calls : list call) (w : World) : World :=
  fold_left (fun w c => state_after c w) calls w.

(** Calls restricted to keys satisfying [allowed]; updates only when
    [updates] holds. *)
Definition call_on (allowed : Key -> Prop) (updates : Prop) (c : call) : Prop :=
  match c with
  | CallGet key => allowed key
  | CallPut key _ => allowed key
  | CallRangeSum l r => allowed (l, r)
  | CallUpdate _ _ => updates
  end.

(** [for key, value in kvs: cache.put(key, value)] *)
Definition put_all {K} `{EqDecision K} (kvs : list (K * Z)) : M (LRUCache K) unit :=
  for_each kvs (fun kv => put kv.1 kv.2).

(** The states of a run: a fresh cache of capacity [C] over the array
    [arr0], then range sums and updates with arguments inside the array. *)
Inductive reachable (arr0 : list Z) (C : Z) : World -> Prop :=
  | reach_init c0 :
      LRUCache_init C = Ok c0 ->
      reachable arr0 C (mkWorld arr0 c0)
  | reach_range_sum w left right :
      reachable arr0 C w ->
      0 <= left <= right -> right < Z.of_nat (length (array w)) ->
      reachable arr0 C (range_sum_with_cache left right w).2
  | reach_update w index value :
      reachable arr0 C w ->
      0 <= index < Z.of_nat (length (array w)) ->
      reachable arr0 C (update_with_cache index value w).2.

(** A cache of capacity [C] within its bound and without duplicate keys. *)
Definition within_capacity {K} (C : Z) (c : LRUCache K) : Prop :=
  capacity c = C /\ Z.of_nat (length (_od c)) <= C /\ NoDup (_od c).*1.

(** In the recency order [od], every entry of [k'] has an entry of [k]
    after it: [k] is the more recently used of the two, and eviction, which
    takes the oldest entry, reaches [k'] first. *)
Definition follows {K} (k k' : K) (od : odict K) : Prop :=
  forall l1 v' l2, od = l1 ++ (k', v') :: l2 -> k ∈ l2.*1.

(** Every cached entry has a key inside the array and holds the sum the
    array gives for that key now. *)
Definition fresh_entries (arr : list Z) (od : odict Key) : Prop :=
  Forall (fun e : Key * Z =>
            (0 <= e.1.1 <= e.1.2 /\ e.1.2 < Z.of_nat (length arr)) /\
            e.2 = sum (list_slice arr e.1.1 (e.1.2 + 1))) od.

(** ** The benchmark runs of task_1.py *)

(** A query [(typ, a, b)]: a range sum when [typ == "Range"], an update
    otherwise. *)
Definition Query : Type := (string * Z * Z)%type.

(** [RunStats] without [seconds], which is wall-clock time. *)
Record RunStats : Type := mkRunStats {
  stat_hits : Z;
  stat_misses : Z
}.

(** The loop of [run_no_cache], from a given [total_sink]; it returns the
    final [total_sink]. *)
Fixpoint run_no_cache_loop (queries : list Query) (total_sink : Z)
    : M (list Z) Z :=
  match queries with
  | [] => mret total_sink
  | (typ, a, b) :: queries' =>
      if String.eqb typ "Range" then
        x ← range_sum_no_cache a b;
        run_no_cache_loop queries' (Z.lxor total_sink x)
      else
        update_no_cache a b ;;
        run_no_cache_loop queries' total_sink
  end.

(** [run_no_cache] *)
Definition run_no_cache (queries : list Query) : M (list Z) RunStats :=
  _ ← run_no_cache_loop queries 0;
  mret (mkRunStats 0 0).

(** The loop of [run_with_cache]. *)
Fixpoint run_with_cache_loop (queries : list Query) (total_sink : Z)
    : M World Z :=
  match queries with
  | [] => mret total_sink
  | (typ, a, b) :: queries' =>
      if String.eqb typ "Range" then
        x ← range_sum_with_cache a b;
        run_with_cache_loop queries' (Z.lxor total_sink x)
      else
        update_with_cache a b ;;
        run_with_cache_loop queries' total_sink
  end.

(** [run_with_cache]: the cache is local to the run, the array is the
    caller's. *)
Definition run_with_cache (queries : list Query) (k_capacity : Z)
    : M (list Z) RunStats :=
  fun arr =>
    match LRUCache_init k_capacity with
    | Raise e => (Raise e, arr)
    | Ok c0 =>
        match run_with_cache_loop queries 0 (mkWorld arr c0) with
        | (Ok _, w) =>
            (Ok (mkRunStats (hits (cache w)) (misses (cache w))), array w)
        | (Raise e, w) => (Raise e, array w)
        end
    end.

(** ** The workload generator of task_1.py

    The module [random] is outside the program.  Its generator is a hidden
    state that hands out draws; here the draws are two given streams, raw
    integers and floats, and the state is how far each was consumed.  Every
    run of the Python generator is the run on some pair of streams, so what
    holds for all streams holds for all runs. *)

Record Random : Type := mkRandom {
  int_draws : nat -> Z;
  float_draws : nat -> float;
  int_pos : nat;
  float_pos : nat
}.

Definition next_int : M Random Z :=
  fun g =>
    (Ok (int_draws g (int_pos g)),
     mkRandom (int_draws g) (float_draws g) (S (int_pos g)) (float_pos g)).

(** [random.random()] *)
Definition random : M Random float :=
  fun g =>
    (Ok (float_draws g (float_pos g)),
     mkRandom (int_draws g) (float_draws g) (int_pos g) (S (float_pos g))).

(** [random.randint(a, b)]: an integer of [a, b]; ValueError on an empty
    range. *)
Definition randint (a b : Z) : M Random Z :=
  if b <? a then raise ValueError
  else r ← next_int; mret (a + r mod (b - a + 1)).

(** [random.choice(seq)] on a list of pairs; IndexError on an empty list. *)
Definition choice (seq : list (Z * Z)) : M Random (Z * Z) :=
  match seq with
  | [] => raise IndexError
  | x :: _ =>
      r ← next_int;
      mret (nth (Z.to_nat (r mod Z.of_nat (length seq))) seq x)
  end.

(** The list comprehension that builds [hot]. *)
Fixpoint make_hot (count : nat) (n : Z) : M Random (list (Z * Z)) :=
  match count with
  | O => mret []
  | S count' =>
      l ← randint 0 (n / 2);
      r ← randint (n / 2) (n - 1);
      hot ← make_hot count' n;
      mret ((l, r) :: hot)
  end.

(** The loop [for _ in range(q)] of [make_queries]. *)
Fixpoint make_queries_loop (count : nat) (n : Z) (hot : list (Z * Z))
    (p_hot p_update : float) (queries : list Query)
    : M Random (list Query) :=
  match count with
  | O => mret queries
  | S count' =>
      x ← random;
      if PrimFloat.ltb x p_update then
        idx ← randint 0 (n - 1);
        val ← randint 1 100;
        make_queries_loop count' n hot p_hot p_update
          (queries ++ [("Update"%string, idx, val)])
      else
        y ← random;
        if PrimFloat.ltb y p_hot then
          lr ← choice hot;
          make_queries_loop count' n hot p_hot p_update
            (queries ++ [("Range"%string, lr.1, lr.2)])
        else
          l ← randint 0 (n - 1);
          r ← randint l (n - 1);
          make_queries_loop count' n hot p_hot p_update
            (queries ++ [("Range"%string, l, r)])
  end.

(** [make_queries] *)
Definition make_queries (n q hot_pool : Z) (p_hot p_update : float)
    : M Random (list Query) :=
  hot ← make_hot (Z.to_nat hot_pool) n;
  make_queries_loop (Z.to_nat q) n hot p_hot p_update [].

(** ** class SlidingWindowRateLimiter (task_2.py)

    Timestamps are the floats of [time.time()]; every method reads the
    clock once, and that reading is the argument [now].  [window_size] is
    an int; where it meets a float in a subtraction Python converts it to
    the nearest float and raises OverflowError when there is none.  A
    deque is a list, oldest timestamp first; [history] is a dictionary
    that is never iterated, hence a finite map. *)

(** The int operand of a float subtraction: the nearest binary64 float,
    ties to even; OverflowError when that is beyond the finite floats. *)
Definition float_of_int (z : Z) : res float :=
  match binary_normalize prec emax z 0 false with
  | S754_infinity _ => Raise OverflowError
  | sf => Ok (SF2Prim sf)
  end.

Record SlidingWindowRateLimiter : Type := mkLimiter {
  window_size : Z;
  max_requests : Z;
  history : gmap string (list float)
}.

(** [SlidingWindowRateLimiter.__init__] *)
Definition limiter_init (window_size max_requests : Z)
    : SlidingWindowRateLimiter :=
  mkLimiter window_size max_requests ∅.

Definition set_history (h : gmap string (list float))
    : M SlidingWindowRateLimiter unit :=
  fun self => (Ok tt, mkLimiter (window_size self) (max_requests self) h).

(** [while dq and dq[0] <= boundary: dq.popleft()] *)
Fixpoint drop_expired (boundary : float) (dq : list float) : list float :=
  match dq with
  | [] => []
  | t :: dq' =>
      if PrimFloat.leb t boundary then drop_expired boundary dq' else dq
  end.

(** [_cleanup_window]: the deque is emptied in place from the left, and
    its dictionary entry deleted when nothing is left. *)
Definition _cleanup_window (user_id : string) (current_time : float)
    : M SlidingWindowRateLimiter unit :=
  self ← get_state;
  match history self !! user_id with
  | None => mret tt
  | Some [] => mret tt
  | Some dq =>
      ws ← of_res (float_of_int (window_size self));
      let boundary := PrimFloat.sub current_time ws in
      let dq' := drop_expired boundary dq in
      set_history (<[user_id := dq']> (history self)) ;;
      match dq' with
      | [] => set_history (delete user_id (<[user_id := dq']> (history self)))
      | _ => mret tt
      end
  end.

(** [can_send_message] *)
Definition can_send_message (user_id : string) (now : float)
    : M SlidingWindowRateLimiter bool :=
  _cleanup_window user_id now ;;
  self ← get_state;
  match history self !! user_id with
  | None => mret true
  | Some dq => mret (bool_decide (Z.of_nat (length dq) < max_requests self))
  end.

(** [record_message]: a new deque is stored in [history] before the
    timestamp is appended to it. *)
Definition record_message (user_id : string) (now : float)
    : M SlidingWindowRateLimiter bool :=
  _cleanup_window user_id now ;;
  self ← get_state;
  dq ← match history self !! user_id with
       | None => set_history (<[user_id := []]> (history self)) ;; mret []
       | Some dq => mret dq
       end;
  self ← get_state;
  if bool_decide (Z.of_nat (length dq) < max_requests self) then
    set_history (<[user_id := dq ++ [now]]> (history self)) ;;
    mret true
  else mret false.

(** [max(0.0, wait)]: the second argument only when it is greater. *)
Definition max_0 (wait : float) : float :=
  if PrimFloat.ltb 0%float wait then wait else 0%float.

(** [time_until_next_allowed]; [dq[0]] on an empty deque raises
    IndexError, before [window_size] is converted for the subtraction. *)
Definition time_until_next_allowed (user_id : string) (now : float)
    : M SlidingWindowRateLimiter float :=
  _cleanup_window user_id now ;;
  self ← get_state;
  match history self !! user_id with
  | None => mret 0%float
  | Some dq =>
      if bool_decide (Z.of_nat (length dq) < max_requests self) then
        mret 0%float
      else
        match dq with
        | [] => raise IndexError
        | t :: _ =>
            ws ← of_res (float_of_int (window_size self));
            let wait := PrimFloat.sub ws (PrimFloat.sub now t) in
            mret (max_0 wait)
        end
  end.

(** The calls a client can make on a limiter, each with the clock reading
    it gets. *)
Inductive limiter_call : Type :=
  | CanSend (user_id : string) (now : float)
  | RecordMessage (user_id : string) (now : float)
  | TimeUntilNext (user_id : string) (now : float).

Definition limiter_user (c : limiter_call) : string :=
  match c with
  | CanSend u _ | RecordMessage u _ | TimeUntilNext u _ => u
  end.

(** The limiter a call leaves behind, whether it returned or raised. *)
Definition limiter_after_call (c : limiter_call)
    (s : SlidingWindowRateLimiter) : SlidingWindowRateLimiter :=
  match c with
  | CanSend u now => (can_send_message u now s).2
  | RecordMessage u now => (record_message u now s).2
  | TimeUntilNext u now => (time_until_next_allowed u now s).2
  end.

Definition limiter_after (calls : list limiter_call)
    (s : SlidingWindowRateLimiter) : SlidingWindowRateLimiter :=
  fold_left (fun s c => limiter_after_call c s) calls s.

(** Queries whose arguments are inside an array of length [n]. *)
Definition query_in_range (n : Z) (q : Query) : Prop :=
  if String.eqb q.1.1 "Range"
  then 0 <= q.1.2 <= q.2 /\ q.2 < n
  else 0 <= q.1.2 < n.

(** What [_cleanup_window] at clock reading [now] makes of a user's
    dictionary entry. *)
Definition clean_entry (ws now : float) (entry : option (list float))
    : option (list float) :=
  match entry with
  | None => None
  | Some [] => Some []
  | Some dq =>
      match drop_expired (PrimFloat.sub now ws) dq with
      | [] => None
      | dq' => Some dq'
      end
  end.

Definition limiter_now (c : limiter_call) : float :=
  match c with
  | CanSend _ now | RecordMessage _ now | TimeUntilNext _ now => now
  end.

(** The entry [_cleanup_window] leaves for a user, or the exception it
    raises: the window is converted only for a non-empty deque. *)
Definition cleaned_entry (s : SlidingWindowRateLimiter) (user_id : string)
    (now : float) : res (option (list float)) :=
  match history s !! user_id with
  | Some (t :: dq) =>
      match float_of_int (window_size s) with
      | Ok ws => Ok (clean_entry ws now (Some (t :: dq)))
      | Raise e => Raise e
      end
  | entry => Ok entry
  end.

(** The limiter with a user's entry replaced. *)
Definition store_entry (user_id : string) (entry : option (list float))
    (s : SlidingWindowRateLimiter) : SlidingWindowRateLimiter :=
  mkLimiter (window_size s) (max_requests s)
    (partial_alter (fun _ => entry) user_id (history s)).

(** A generated query: inside an array of length [n], typed "Range" or
    "Update", an update's value within 1..100. *)
Definition generated_query (n : Z) (q : Query) : Prop :=
  query_in_range n q /\
  (q.1.1 = "Range"%string \/ (q.1.1 = "Update"%string /\ 1 <= q.2 <= 100)).

(** The generator after one float was drawn. *)
Definition after_float (g : Random) : Random :=
  mkRandom (int_draws g) (float_draws g) (int_pos g) (S (float_pos g)).

(** A pair of streams to run the generator on. *)
Definition sample_random : Random :=
  mkRandom (fun i => Z.of_nat i * 7 + 3)
    (fun i => match (i mod 4)%nat with
              | 0%nat => 0.125%float
              | 2%nat => 0.875%float
              | _ => 0.5%float
              end) 0 0.

(** * Verification *)

(** ** The ordered dictionary *)

Section OrderedDictFacts.
Context {K : Type} `{EqDecision K}.
Implicit Types (od : odict K) (key k : K) (v value : Z).

Lemma od_contains_true key od :
  od_contains key od = true <-> key ∈ od.*1.
Proof. unfold od_contains. apply bool_decide_eq_true. Qed.

Lemma od_contains_false key od :
  od_contains key od = false <-> key ∉ od.*1.
Proof. unfold od_contains. apply bool_decide_eq_false. Qed.

Lemma od_getitem_Ok key od v :
  od_getitem key od = Ok v -> (key, v) ∈ od.
Proof.
  induction od as [|[k w] od IH]; simpl; [discriminate|].
  destruct (decide (k = key)) as [->|Hne]; intros Hg.
  - injection Hg as ->. left.
  - right. auto.
Qed.

Lemma od_getitem_present key od :
  key ∈ od.*1 -> exists v, od_getitem key od = Ok v.
Proof.
  induction od as [|[k w] od IH]; simpl; intros Hin.
  - inversion Hin.
  - destruct (decide (k = key)) as [->|Hne]; [eauto|].
    apply IH. inversion Hin; subst; [congruence|done].
Qed.

Lemma od_getitem_absent key od :
  key ∉ od.*1 -> od_getitem key od = Raise KeyError.
Proof.
  induction od as [|[k w] od IH]; simpl; intros Hnin; [done|].
  destruct (decide (k = key)) as [->|Hne].
  - exfalso. apply Hnin. left.
  - apply IH. intros Hin. apply Hnin. by right.
Qed.

Lemma od_getitem_Raise key od e :
  od_getitem key od = Raise e -> key ∉ od.*1.
Proof.
  intros Hg Hin. destruct (od_getitem_present _ _ Hin) as [v Hv]. congruence.
Qed.

Lemma od_remove_absent key od :
  key ∉ od.*1 -> od_remove key od = od.
Proof.
  intros Hnin. unfold od_remove.
  induction od as [|[k w] od IH]; [done|].
  rewrite filter_cons. simpl in *.
  destruct (decide (k <> key)) as [Hne|Heq].
  - f_equal. apply IH. intros Hin. apply Hnin. by right.
  - exfalso. apply Hnin. apply dec_stable in Heq. subst. left.
Qed.

Lemma od_remove_keys key od :
  key ∉ (od_remove key od).*1.
Proof.
  unfold od_remove. intros Hin.
  apply list_elem_of_fmap in Hin as ([k w] & -> & He).
  apply list_elem_of_filter in He as [Hne _]. by apply Hne.
Qed.

Lemma od_remove_length key od :
  (length (od_remove key od) <= length od)%nat.
Proof. unfold od_remove. apply length_filter. Qed.

Lemma od_remove_idemp key od :
  od_remove key (od_remove key od) = od_remove key od.
Proof. apply od_remove_absent, od_remove_keys. Qed.

Lemma od_remove_moved key od v :
  od_remove key (od_remove key od ++ [(key, v)]) = od_remove key od.
Proof.
  unfold od_remove at 1. rewrite filter_app.
  rewrite filter_cons_False by (simpl; tauto).
  rewrite filter_nil, app_nil_r. apply od_remove_idemp.
Qed.

Lemma od_getitem_app_r key od v :
  key ∉ od.*1 -> od_getitem key (od ++ [(key, v)]) = Ok v.
Proof.
  induction od as [|[k w] od IH]; simpl; intros Hnin.
  - by rewrite decide_True.
  - destruct (decide (k = key)) as [->|Hne].
    + exfalso. apply Hnin. left.
    + apply IH. intros Hin. apply Hnin. by right.
Qed.

Lemma od_getitem_moved key od v :
  od_getitem key (od_remove key od ++ [(key, v)]) = Ok v.
Proof. apply od_getitem_app_r, od_remove_keys. Qed.

(** Storing under a key that sits alone at the end overwrites in place. *)
Lemma od_setitem_last key v value od :
  key ∉ od.*1 ->
  od_setitem key value (od ++ [(key, v)]) = od ++ [(key, value)].
Proof.
  intros Hnin. unfold od_setitem.
  replace (od_contains key (od ++ [(key, v)])) with true.
  2:{ symmetry. apply od_contains_true. rewrite fmap_app.
      apply elem_of_app. right. simpl. left. }
  rewrite fmap_app. simpl. rewrite decide_True by done. f_equal.
  induction od as [|[k w] od IH]; [done|]. simpl in *.
  rewrite decide_False.
  - f_equal. apply IH. intros Hin. apply Hnin. by right.
  - intros ->. apply Hnin. left.
Qed.

Lemma od_setitem_new key value od :
  key ∉ od.*1 -> od_setitem key value od = od ++ [(key, value)].
Proof.
  intros Hnin. unfold od_setitem.
  by rewrite (proj2 (od_contains_false key od) Hnin).
Qed.

Lemma od_remove_NoDup key od :
  NoDup od.*1 -> NoDup (od_remove key od).*1.
Proof.
  unfold od_remove. induction od as [|[k w] od IH]; [done|].
  simpl. rewrite NoDup_cons. intros [Hnin Hnd].
  rewrite filter_cons. destruct (decide ((k, w).1 <> key)); [|auto].
  simpl. apply NoDup_cons. split; [|auto].
  intros Hin. apply Hnin.
  apply list_elem_of_fmap in Hin as (e & -> & He).
  apply list_elem_of_filter in He as [_ He].
  apply list_elem_of_fmap. eauto.
Qed.
End OrderedDictFacts.

(** ** The cache methods as functions on the cache *)

Ltac run_M :=
  unfold mbind, M_bind, mret, M_ret, get_state, set_state, of_res,
    update_od, read_od, with_od, incr_hits, incr_misses; simpl.

Section LRUCacheFacts.
Context {K : Type} `{EqDecision K}.
Implicit Types (c self : LRUCache K) (key k : K) (v value : Z).

Lemma get_hit key v c :
  od_getitem key (_od c) = Ok v ->
  get key c =
    (Ok v, mkLRUCache (capacity c) (od_remove key (_od c) ++ [(key, v)])
             (hits c + 1) (misses c)).
Proof.
  intros Hg. unfold get. run_M.
  assert (Hin : key ∈ (_od c).*1).
  { apply od_getitem_Ok in Hg. apply list_elem_of_fmap. by exists (key, v). }
  rewrite (proj2 (od_contains_true _ _) Hin).
  unfold od_move_to_end. rewrite Hg. simpl.
  by rewrite od_getitem_moved.
Qed.

Lemma get_miss key c :
  key ∉ (_od c).*1 ->
  get key c =
    (Ok (-1), mkLRUCache (capacity c) (_od c) (hits c) (misses c + 1)).
Proof.
  intros Hnin. unfold get. run_M.
  by rewrite (proj2 (od_contains_false _ _) Hnin).
Qed.

Lemma put_run key value c :
  put key value c =
    (Ok tt, mkLRUCache (capacity c)
              (evict (capacity c) (od_remove key (_od c) ++ [(key, value)]))
              (hits c) (misses c)).
Proof.
  unfold put. run_M.
  destruct (od_contains key (_od c)) eqn:Hc.
  - apply od_contains_true in Hc.
    destruct (od_getitem_present _ _ Hc) as [v Hv].
    unfold od_move_to_end. rewrite Hv. simpl.
    rewrite od_setitem_last by apply od_remove_keys.
    unfold evict.
    destruct (od_remove key (_od c) ++ [(key, value)]) as [|e od'] eqn:Hod.
    + by destruct (od_remove key (_od c)).
    + simpl. by destruct (_ >? _).
  - apply od_contains_false in Hc. simpl.
    rewrite od_setitem_new, od_remove_absent by done.
    unfold evict.
    destruct (_od c ++ [(key, value)]) as [|e od'] eqn:Hod.
    + by destruct (_od c).
    + simpl. by destruct (_ >? _).
Qed.
End LRUCacheFacts.

(** ** The engine functions as functions on the world *)

Lemma filter_ext_in {A} (P Q : A -> Prop)
    `{forall x, Decision (P x)} `{forall x, Decision (Q x)} (l : list A) :
  (forall x, x ∈ l -> (P x <-> Q x)) -> filter P l = filter Q l.
Proof.
  induction l as [|a l IH]; intros Hext; [done|].
  rewrite !filter_cons.
  assert (Ha : P a <-> Q a) by (apply Hext; left).
  rewrite IH by (intros x Hx; apply Hext; by right).
  destruct (decide (P a)), (decide (Q a)); tauto.
Qed.

Lemma collect_to_delete_acc index ks acc :
  fold_left
    (fun to_delete k =>
       if bool_decide (overlaps index k) then to_delete ++ [k] else to_delete)
    ks acc = acc ++ filter (overlaps index) ks.
Proof.
  revert acc. induction ks as [|k ks IH]; intros acc; simpl.
  - by rewrite app_nil_r.
  - rewrite IH, filter_cons. case_bool_decide.
    + rewrite decide_True by done. by rewrite <- app_assoc.
    + by rewrite decide_False by done.
Qed.

Lemma collect_to_delete_filter index ks :
  collect_to_delete index ks = filter (overlaps index) ks.
Proof. unfold collect_to_delete. by rewrite collect_to_delete_acc. Qed.

Lemma delete_if_present_run (k : Key) (w : World) :
  delete_if_present k w =
    (Ok tt,
     mkWorld (array w) (with_entries (cache w) (od_remove k (_od (cache w))))).
Proof.
  destruct w as [arr [cap od h m]]. unfold delete_if_present. run_M.
  destruct (od_contains k od) eqn:Hc.
  - unfold on_cache. run_M. unfold od_delitem. by rewrite Hc.
  - apply od_contains_false in Hc. unfold with_entries. simpl.
    by rewrite od_remove_absent.
Qed.

Lemma filter_all {A} (P : A -> Prop) `{forall x, Decision (P x)} (l : list A) :
  (forall x, x ∈ l -> P x) -> filter P l = l.
Proof.
  induction l as [|a l IH]; intros HP; [done|].
  rewrite filter_cons_True by (apply HP; left).
  f_equal. apply IH. intros x Hx. apply HP. by right.
Qed.

(** The deletion loop removes exactly the entries whose key is listed. *)
Lemma delete_loop (ks : list Key) (w : World) :
  for_each ks delete_if_present w
  = (Ok tt,
     mkWorld (array w)
       (with_entries (cache w) (filter (fun e => e.1 ∉ ks) (_od (cache w))))).
Proof.
  revert w. induction ks as [|k ks IH]; intros w.
  - destruct w as [arr [cap od h m]]. simpl. unfold mret, M_ret, with_entries.
    simpl. rewrite filter_all; [done|]. intros e _ Hin. inversion Hin.
  - cbn [for_each]. unfold mbind, M_bind.
    rewrite delete_if_present_run, IH. unfold with_entries. simpl.
    do 3 f_equal. unfold od_remove. rewrite list_filter_filter.
    apply list_filter_iff. intros e. rewrite not_elem_of_cons. tauto.
Qed.

Lemma update_with_cache_Ok index value w arr' :
  list_setitem index value (array w) = Ok arr' ->
  update_with_cache index value w =
    (Ok tt, mkWorld arr' (with_entries (cache w) (invalidate index (_od (cache w))))).
Proof.
  intros Hset. unfold update_with_cache. run_M.
  unfold on_array at 1. rewrite Hset.
  rewrite delete_loop. simpl. unfold with_entries. simpl. do 3 f_equal.
  unfold invalidate, keys, od_keys. rewrite collect_to_delete_filter.
  apply filter_ext_in. intros e He.
  rewrite list_elem_of_filter. split.
  - intros Hn Hov. apply Hn. split; [done|].
    apply list_elem_of_fmap. by exists e.
  - intros Hn [Hov _]. by apply Hn.
Qed.

Lemma update_with_cache_Raise index value w e :
  list_setitem index value (array w) = Raise e ->
  update_with_cache index value w = (Raise e, w).
Proof.
  intros Hset. unfold update_with_cache. run_M.
  unfold on_array. by rewrite Hset.
Qed.

Lemma range_sum_with_cache_hit left right w v :
  od_getitem (left, right) (_od (cache w)) = Ok v ->
  v <> -1 ->
  range_sum_with_cache left right w =
    (Ok v,
     mkWorld (array w)
       (mkLRUCache (capacity (cache w))
          (od_remove (left, right) (_od (cache w)) ++ [((left, right), v)])
          (hits (cache w) + 1) (misses (cache w)))).
Proof.
  intros Hg Hv. unfold range_sum_with_cache. run_M.
  unfold on_cache at 1. rewrite (get_hit _ _ _ Hg).
  by rewrite bool_decide_true.
Qed.

Lemma range_sum_with_cache_miss left right w :
  (left, right) ∉ (_od (cache w)).*1 ->
  let total := sum (list_slice (array w) left (right + 1)) in
  range_sum_with_cache left right w =
    (Ok total,
     mkWorld (array w)
       (mkLRUCache (capacity (cache w))
          (evict (capacity (cache w)) (_od (cache w) ++ [((left, right), total)]))
          (hits (cache w)) (misses (cache w) + 1))).
Proof.
  intros Hnin total. unfold range_sum_with_cache. run_M.
  unfold on_cache at 1. rewrite (get_miss _ _ Hnin).
  rewrite bool_decide_false by (intros Hne; by apply Hne).
  simpl. unfold on_cache. rewrite put_run. simpl.
  by rewrite od_remove_absent.
Qed.

(** A hit on a stored -1 is taken for a miss: the sum is computed again and
    stored again. *)
Lemma range_sum_with_cache_sentinel left right w :
  od_getitem (left, right) (_od (cache w)) = Ok (-1) ->
  let total := sum (list_slice (array w) left (right + 1)) in
  range_sum_with_cache left right w =
    (Ok total,
     mkWorld (array w)
       (mkLRUCache (capacity (cache w))
          (evict (capacity (cache w))
             (od_remove (left, right) (_od (cache w)) ++ [((left, right), total)]))
          (hits (cache w) + 1) (misses (cache w)))).
Proof.
  intros Hg total. unfold range_sum_with_cache. run_M.
  unfold on_cache at 1. rewrite (get_hit _ _ _ Hg).
  rewrite bool_decide_false by (intros Hne; by apply Hne).
  simpl. unfold on_cache. rewrite put_run. simpl.
  by rewrite od_remove_moved.
Qed.

(** ** Lists: assignment and slices *)

Lemma list_setitem_in_range index value arr :
  0 <= index < Z.of_nat (length arr) ->
  list_setitem index value arr = Ok (<[Z.to_nat index := value]> arr).
Proof. intros Hi. unfold list_setitem. by rewrite bool_decide_true. Qed.

Lemma list_setitem_negative index value arr :
  - Z.of_nat (length arr) <= index < 0 ->
  list_setitem index value arr =
    Ok (<[Z.to_nat (index + Z.of_nat (length arr)) := value]> arr).
Proof.
  intros Hi. unfold list_setitem.
  rewrite bool_decide_false by lia. by rewrite bool_decide_true.
Qed.

Lemma list_setitem_out_of_range index value arr :
  index < - Z.of_nat (length arr) \/ Z.of_nat (length arr) <= index ->
  list_setitem index value arr = Raise IndexError.
Proof.
  intros Hi. unfold list_setitem.
  rewrite bool_decide_false by lia. by rewrite bool_decide_false by lia.
Qed.

Lemma list_setitem_length index value arr arr' :
  list_setitem index value arr = Ok arr' -> length arr' = length arr.
Proof.
  unfold list_setitem. repeat case_bool_decide; intros Hs; try discriminate;
    injection Hs as <-; apply length_insert.
Qed.

Lemma list_setitem_twice index value arr arr' :
  list_setitem index value arr = Ok arr' ->
  list_setitem index value arr' = Ok arr'.
Proof.
  intros Hs. pose proof (list_setitem_length _ _ _ _ Hs) as Hlen.
  revert Hs. unfold list_setitem. rewrite Hlen.
  repeat case_bool_decide; intros Hs; try discriminate;
    injection Hs as <-; by rewrite list_insert_insert_eq.
Qed.

Lemma with_entries_id {K} (c : LRUCache K) : with_entries c (_od c) = c.
Proof. by destruct c. Qed.

Lemma invalidate_idemp index od :
  invalidate index (invalidate index od) = invalidate index od.
Proof.
  unfold invalidate. apply filter_all. intros e He.
  by apply list_elem_of_filter in He as [? _].
Qed.

(** ** Invalidation *)

(** C2. After an update at an index inside the array the call has succeeded
    and the cache holds exactly its former entries whose range does not
    contain the index, in their former order and with their former values
    (the counters and the capacity are as before): no entry (l, r) with
    l <= index <= r is left, every other entry is still there, and a cache
    without an overlapping entry is the same cache afterwards. *)
Theorem update_invalidates_exactly_overlapping (w : World) (index value : Z) :
  0 <= index < Z.of_nat (length (array w)) ->
  exists w',
    update_with_cache index value w = (Ok tt, w') /\
    _od (cache w') =
      filter (fun e => ~ (e.1.1 <= index <= e.1.2)) (_od (cache w)) /\
    capacity (cache w') = capacity (cache w) /\
    hits (cache w') = hits (cache w) /\
    misses (cache w') = misses (cache w) /\
    (forall l r v, ((l, r), v) ∈ _od (cache w') -> ~ (l <= index <= r)) /\
    (forall l r v, ((l, r), v) ∈ _od (cache w) -> ~ (l <= index <= r) ->
                   ((l, r), v) ∈ _od (cache w')) /\
    _od (cache w') `sublist_of` _od (cache w) /\
    ((forall l r v, ((l, r), v) ∈ _od (cache w) -> ~ (l <= index <= r)) ->
     cache w' = cache w).
Proof.
  intros Hi. eexists. split.
  { apply update_with_cache_Ok. by apply list_setitem_in_range. }
  simpl. fold (overlaps index). change (filter _ (_od (cache w))) with
    (invalidate index (_od (cache w))).
  repeat split.
  - intros l r v Hin. unfold invalidate in Hin.
    by apply list_elem_of_filter in Hin as [Hno _].
  - intros l r v Hin Hno. unfold invalidate.
    apply list_elem_of_filter. by split.
  - unfold invalidate. apply sublist_filter.
  - intros Hall. unfold invalidate. rewrite filter_all.
    + apply with_entries_id.
    + intros [[l r] v] Hin. by apply (Hall l r v).
Qed.

Lemma update_invalidates_exactly_overlapping_witness :
  let w := mkWorld [1; 2; 3; 4; 5; 6; 7; 8; 9; 10]
             (mkLRUCache 3 [((6, 9), 34); ((0, 1), 3); ((2, 5), 18)] 1 3) in
  0 <= 3 < Z.of_nat (length (array w)) /\
  exists w',
    update_with_cache 3 100 w = (Ok tt, w') /\
    _od (cache w') = [((6, 9), 34); ((0, 1), 3)].
Proof.
  intros w. split; [simpl; lia|].
  destruct (update_invalidates_exactly_overlapping w 3 100) as (w' & Hrun & Hod & _).
  { simpl; lia. }
  exists w'. split; [exact Hrun|]. rewrite Hod. reflexivity.
Defined.

(** C7. Updating the same index with the same value twice in a row gives
    the outcome, the array and the cache (entries, values, order, counters)
    of updating once; this holds for every index, in range or not. *)
Theorem update_twice_same_as_once (w : World) (index value : Z) :
  (update_with_cache index value ;; update_with_cache index value) w =
  update_with_cache index value w.
Proof.
  unfold mbind, M_bind.
  destruct (list_setitem index value (array w)) as [arr'|e] eqn:Hset.
  - rewrite (update_with_cache_Ok _ _ _ _ Hset).
    erewrite update_with_cache_Ok by (simpl; by eapply list_setitem_twice).
    simpl. unfold with_entries. simpl. by rewrite invalidate_idemp.
  - by rewrite (update_with_cache_Raise _ _ _ _ Hset).
Qed.

(** ** Arguments outside the array *)

(** [range_sum_with_cache] has no failing path and never writes the array. *)
Lemma range_sum_with_cache_total left right w :
  exists x c',
    range_sum_with_cache left right w = (Ok x, mkWorld (array w) c').
Proof.
  destruct (od_getitem (left, right) (_od (cache w))) as [v|e] eqn:Hg.
  - destruct (decide (v = -1)) as [->|Hne].
    + rewrite (range_sum_with_cache_sentinel _ _ _ Hg). eauto.
    + rewrite (range_sum_with_cache_hit _ _ _ _ Hg Hne). eauto.
  - apply od_getitem_Raise in Hg.
    rewrite (range_sum_with_cache_miss _ _ _ Hg). eauto.
Qed.

(** C3, as the code behaves. An update whose index is outside [-N, N)
    raises IndexError and leaves the array and the cache as they were; an
    update with -N <= index < 0 is accepted: it writes position N + index
    and removes the entries whose key contains the index.  A range-sum call
    is never rejected, whatever its bounds: it returns a value, leaves the
    array as it was and counts exactly one lookup in a cache of unchanged
    capacity.  When the key is not cached it returns the sum of the slice,
    counts a miss and stores the sum as the newest entry, the oldest entry
    making room when the capacity is exceeded; when the key is cached it
    counts a hit and, the stored value not being -1, returns that value
    and moves the entry to the newest end; a stored -1 is taken for
    absence: the sum of the slice is returned and stored again as the
    newest entry. *)
Theorem out_of_range_update_rejected_range_sum_total (w : World) :
  (forall index value,
     index < - Z.of_nat (length (array w)) \/
       Z.of_nat (length (array w)) <= index ->
     update_with_cache index value w = (Raise IndexError, w)) /\
  (forall index value,
     - Z.of_nat (length (array w)) <= index < 0 ->
     exists c',
       update_with_cache index value w =
         (Ok tt,
          mkWorld
            (<[Z.to_nat (index + Z.of_nat (length (array w))) := value]> (array w))
            c') /\
       _od c' =
         filter (fun e => ~ (e.1.1 <= index <= e.1.2)) (_od (cache w)) /\
       capacity c' = capacity (cache w) /\
       hits c' = hits (cache w) /\
       misses c' = misses (cache w)) /\
  (forall left right,
     exists x c',
       range_sum_with_cache left right w = (Ok x, mkWorld (array w) c') /\
       capacity c' = capacity (cache w) /\
       hits c' + misses c' = hits (cache w) + misses (cache w) + 1 /\
       ((left, right) ∉ keys (cache w) ->
        x = sum (list_slice (array w) left (right + 1)) /\
        _od c' =
          evict (capacity (cache w)) (_od (cache w) ++ [((left, right), x)]) /\
        hits c' = hits (cache w) /\
        misses c' = misses (cache w) + 1) /\
       (forall v,
          od_getitem (left, right) (_od (cache w)) = Ok v ->
          hits c' = hits (cache w) + 1 /\
          misses c' = misses (cache w) /\
          (v <> -1 ->
           x = v /\
           _od c' =
             od_remove (left, right) (_od (cache w)) ++ [((left, right), v)]) /\
          (v = -1 ->
           x = sum (list_slice (array w) left (right + 1)) /\
           _od c' =
             evict (capacity (cache w))
               (od_remove (left, right) (_od (cache w)) ++
                [((left, right), x)])))).
Proof.
  split; [|split].
  - intros index value Hi.
    apply update_with_cache_Raise. by apply list_setitem_out_of_range.
  - intros index value Hi. eexists. split.
    + apply update_with_cache_Ok. by apply list_setitem_negative.
    + done.
  - intros left right.
    destruct (od_getitem (left, right) (_od (cache w))) as [v|e] eqn:Hg.
    + assert (Hin : (left, right) ∈ keys (cache w)).
      { apply od_getitem_Ok in Hg. apply list_elem_of_fmap.
        by exists ((left, right), v). }
      destruct (decide (v = -1)) as [->|Hne].
      * rewrite (range_sum_with_cache_sentinel _ _ _ Hg).
        do 2 eexists. split; [reflexivity|]. simpl.
        split; [done|]. split; [lia|]. split; [done|].
        intros v' [= <-]. split; [done|]. split; [done|]. split; [done|].
        intros _. by split.
      * rewrite (range_sum_with_cache_hit _ _ _ _ Hg Hne).
        do 2 eexists. split; [reflexivity|]. simpl.
        split; [done|]. split; [lia|]. split; [done|].
        intros v' [= <-]. split; [done|]. split; [done|]. split; [done|].
        intros ->. by destruct Hne.
    + apply od_getitem_Raise in Hg.
      rewrite (range_sum_with_cache_miss _ _ _ Hg).
      do 2 eexists. split; [reflexivity|]. simpl.
      split; [done|]. split; [lia|]. split; [done|].
      intros v' Hv'. discriminate.
Qed.

Lemma out_of_range_update_rejected_range_sum_total_witness :
  let w := mkWorld [1; 2; 3] (mkLRUCache 2 [((0, 1), 3); ((-1, 7), 3)] 0 2) in
  update_with_cache 3 7 w = (Raise IndexError, w) /\
  update_with_cache (-4) 7 w = (Raise IndexError, w) /\
  (exists c',
     update_with_cache (-1) 7 w = (Ok tt, mkWorld [1; 2; 7] c') /\
     _od c' = [((0, 1), 3)]) /\
  (exists x c',
     range_sum_with_cache 2 1 w = (Ok x, mkWorld (array w) c') /\
     x = 0 /\
     _od c' = [((-1, 7), 3); ((2, 1), 0)] /\
     misses c' = 3) /\
  (exists x c',
     range_sum_with_cache (-1) 7 w = (Ok x, mkWorld (array w) c') /\
     x = 3 /\
     _od c' = [((0, 1), 3); ((-1, 7), 3)] /\
     hits c' = 1).
Proof.
  intros w.
  destruct (out_of_range_update_rejected_range_sum_total w)
    as (Hrej & Hneg & Htot).
  split; [apply Hrej; right; simpl; lia|].
  split; [apply Hrej; left; simpl; lia|].
  split.
  { destruct (Hneg (-1) 7) as (c' & Hrun & Hod & _); [simpl; lia|].
    exists c'. split; [exact Hrun|]. rewrite Hod. reflexivity. }
  split.
  - destruct (Htot 2 1) as (x & c' & Hrun & _ & _ & Hmiss & _).
    destruct Hmiss as (Hx & Hod & _ & Hm).
    { apply (bool_decide_unpack _). vm_compute. exact I. }
    exists x, c'. split; [exact Hrun|].
    assert (Hx0 : x = 0) by (rewrite Hx; reflexivity).
    split; [exact Hx0|]. split; [rewrite Hod, Hx0; reflexivity|].
    rewrite Hm. reflexivity.
  - destruct (Htot (-1) 7) as (x & c' & Hrun & _ & _ & _ & Hhit).
    destruct (Hhit 3) as (Hh & _ & Hval & _); [reflexivity|].
    destruct Hval as [Hx Hod]; [discriminate|].
    exists x, c'. split; [exact Hrun|]. split; [exact Hx|].
    split; [rewrite Hod; reflexivity|]. rewrite Hh. reflexivity.
Defined.

(** C3 fails as stated: a range-sum call with left > right, and one with a
    bound past the end, return a value and add a cache entry and a miss; an
    update at index -1 writes the last element. *)
Lemma out_of_range_calls_not_rejected :
  range_sum_with_cache 2 1 (mkWorld [1; 2; 3] (mkLRUCache 2 [] 0 0)) =
    (Ok 0, mkWorld [1; 2; 3] (mkLRUCache 2 [((2, 1), 0)] 0 1)) /\
  range_sum_with_cache 1 7 (mkWorld [1; 2; 3] (mkLRUCache 2 [] 0 0)) =
    (Ok 5, mkWorld [1; 2; 3] (mkLRUCache 2 [((1, 7), 5)] 0 1)) /\
  update_with_cache (-1) 9 (mkWorld [1; 2; 3] (mkLRUCache 2 [] 0 0)) =
    (Ok tt, mkWorld [1; 2; 9] (mkLRUCache 2 [] 0 0)).
Proof. repeat split; reflexivity. Qed.

(** ** The lookup result *)

(** C6 fails as stated: the value returned for an absent key, -1, is also a
    storable value.  A cache holding -1 under (0, 0) answers [get] for that
    resident key with what it answers for the absent key (1, 1), and
    [range_sum_with_cache] takes the hit for a miss: it counts a hit,
    computes the sum again and stores it again. *)
Lemma get_sentinel_collision :
  let c := mkLRUCache 2 [((0, 0), -1)] 0 1 in
  (get (0, 0) c).1 = Ok (-1) /\
  (get (1, 1) c).1 = Ok (-1) /\
  range_sum_with_cache 0 0 (mkWorld [-1] (mkLRUCache 2 [] 0 0)) =
    (Ok (-1), mkWorld [-1] c) /\
  range_sum_with_cache 0 0 (mkWorld [-1] c) =
    (Ok (-1), mkWorld [-1] (mkLRUCache 2 [((0, 0), -1)] 1 1)).
Proof. repeat split; reflexivity. Qed.

(** C6, as the code behaves. For a resident key [get] returns the stored
    value, moves the entry to the most-recently-used end and adds one to
    [hits]; for an absent key it returns -1 and adds one to [misses].  It
    works on the cache alone, so the array is as before.  A stored value
    other than -1 differs from the absent answer, and the caller
    [range_sum_with_cache] then returns it as a hit without storing
    anything. *)
Theorem get_lookup_with_sentinel (w : World) (key : Key) :
  (on_cache (get key) w).2.(array) = array w /\
  (forall v, od_getitem key (_od (cache w)) = Ok v ->
     get key (cache w) =
       (Ok v, mkLRUCache (capacity (cache w))
                (od_remove key (_od (cache w)) ++ [(key, v)])
                (hits (cache w) + 1) (misses (cache w)))) /\
  (key ∉ keys (cache w) ->
     get key (cache w) =
       (Ok (-1), mkLRUCache (capacity (cache w)) (_od (cache w))
                   (hits (cache w)) (misses (cache w) + 1))) /\
  (forall v, od_getitem key (_od (cache w)) = Ok v -> v <> -1 ->
     (get key (cache w)).1 <> Ok (-1) /\
     range_sum_with_cache key.1 key.2 w =
       (Ok v, mkWorld (array w) (get key (cache w)).2)).
Proof.
  repeat split.
  - unfold on_cache. by destruct (get key (cache w)).
  - intros v Hg. by apply get_hit.
  - intros Hnin. by apply get_miss.
  - rename select (od_getitem _ _ = _) into Hg.
    rewrite (get_hit _ _ _ Hg). simpl. congruence.
  - rename select (od_getitem _ _ = _) into Hg.
    rename select (_ <> -1) into Hne.
    destruct key as [l r]. simpl.
    rewrite (range_sum_with_cache_hit _ _ _ _ Hg Hne).
    by rewrite (get_hit _ _ _ Hg).
Qed.

Lemma get_lookup_with_sentinel_witness :
  let c := mkLRUCache 2 [((0, 1), 3); ((2, 2), 3)] 0 2 in
  let w := mkWorld [1; 2; 3] c in
  get (0, 1) c = (Ok 3, mkLRUCache 2 [((2, 2), 3); ((0, 1), 3)] 1 2) /\
  get (1, 1) c = (Ok (-1), mkLRUCache 2 [((0, 1), 3); ((2, 2), 3)] 0 3) /\
  range_sum_with_cache 0 1 w =
    (Ok 3, mkWorld [1; 2; 3] (mkLRUCache 2 [((2, 2), 3); ((0, 1), 3)] 1 2)).
Proof.
  intros c w.
  destruct (get_lookup_with_sentinel w (0, 1)) as (_ & Hhit & _ & Hcaller).
  destruct (get_lookup_with_sentinel w (1, 1)) as (_ & _ & Hmiss & _).
  split; [apply (Hhit 3); reflexivity|].
  split.
  { apply Hmiss. apply (bool_decide_unpack _). vm_compute. exact I. }
  destruct (Hcaller 3) as [_ Hrun]; [reflexivity|discriminate|].
  exact Hrun.
Defined.

(** ** Negative indices and empty ranges *)

(** C9 fails as stated: cached keys can have a negative left bound.  On
    [1; 2; 3; 4; 5] and a fresh cache, the range sums over (0, 4) and
    (-3, -2) cache both keys; the update at index -3 then writes position
    2 and removes the entry (-3, -2), whose key contains -3, while the
    entry (0, 4) stays with its old sum 15. *)
Lemma negative_index_update_removes_negative_key :
  (range_sum_with_cache 0 4 ;; range_sum_with_cache (-3) (-2))
    (mkWorld [1; 2; 3; 4; 5] (mkLRUCache 2 [] 0 0)) =
    (Ok 7,
     mkWorld [1; 2; 3; 4; 5]
       (mkLRUCache 2 [((0, 4), 15); ((-3, -2), 7)] 0 2)) /\
  update_with_cache (-3) 50
    (mkWorld [1; 2; 3; 4; 5]
       (mkLRUCache 2 [((0, 4), 15); ((-3, -2), 7)] 0 2)) =
    (Ok tt,
     mkWorld [1; 2; 50; 4; 5] (mkLRUCache 2 [((0, 4), 15)] 0 2)).
Proof. split; reflexivity. Qed.

(** C9, as the code behaves. An update at a negative index
    -N <= index < 0 succeeds and writes position N + index.  It removes
    the entries whose key (l, r) has l <= index <= r, which are keys with
    a negative left bound, and no other, and leaves capacity and counters
    alone; when every cached key has a left bound of 0 or more it removes
    none and the cache is exactly as before: entries covering position
    N + index keep their old sum. *)
Theorem update_negative_index_keeps_cache (w : World) (index value : Z) :
  - Z.of_nat (length (array w)) <= index < 0 ->
  exists c',
    update_with_cache index value w =
      (Ok tt,
       mkWorld
         (<[Z.to_nat (Z.of_nat (length (array w)) + index) := value]> (array w))
         c') /\
    _od c' =
      filter (fun e => ~ (e.1.1 <= index <= e.1.2)) (_od (cache w)) /\
    capacity c' = capacity (cache w) /\
    hits c' = hits (cache w) /\
    misses c' = misses (cache w) /\
    (forall l r v, ((l, r), v) ∈ _od (cache w) -> ((l, r), v) ∉ _od c' ->
                   l <= index <= r /\ l < 0) /\
    (Forall (fun e : Key * Z => 0 <= e.1.1) (_od (cache w)) ->
     c' = cache w).
Proof.
  intros Hi. eexists. split; [|split; [|split; [|split; [|split; [|split]]]]].
  - rewrite (update_with_cache_Ok _ _ _ _ (list_setitem_negative _ _ _ Hi)).
    by rewrite (Z.add_comm index).
  - done.
  - done.
  - done.
  - done.
  - intros l r v Hin Hnin. simpl in Hnin. unfold invalidate in Hnin.
    destruct (decide (overlaps index (l, r))) as [Hov|Hno].
    + unfold overlaps in Hov. simpl in Hov. lia.
    + exfalso. apply Hnin. apply list_elem_of_filter. by split.
  - intros Hkeys. unfold invalidate.
    rewrite filter_all; [apply with_entries_id|].
    intros e He Hov. rewrite Forall_forall in Hkeys.
    specialize (Hkeys e He). unfold overlaps in Hov. lia.
Qed.

Lemma update_negative_index_keeps_cache_witness :
  let c := mkLRUCache 2 [((0, 2), 6)] 0 1 in
  let w := mkWorld [1; 2; 3] c in
  - Z.of_nat (length (array w)) <= -1 < 0 /\
  update_with_cache (-1) 9 w = (Ok tt, mkWorld [1; 2; 9] c) /\
  range_sum_with_cache 0 2 (mkWorld [1; 2; 9] c) =
    (Ok 6, mkWorld [1; 2; 9] (mkLRUCache 2 [((0, 2), 6)] 1 1)) /\
  sum (list_slice [1; 2; 9] 0 (2 + 1)) = 12.
Proof.
  intros c w.
  assert (Hi : - Z.of_nat (length (array w)) <= -1 < 0) by (simpl; lia).
  split; [exact Hi|]. split; [|split; reflexivity].
  destruct (update_negative_index_keeps_cache w (-1) 9 Hi)
    as (c' & Hrun & _ & _ & _ & _ & _ & Hsame).
  rewrite Hrun. rewrite Hsame; [reflexivity|].
  constructor; [simpl; lia | constructor].
Defined.

Lemma list_slice_empty arr left right :
  0 <= right < left /\ left < Z.of_nat (length arr) ->
  list_slice arr left (right + 1) = [].
Proof.
  intros Hlr. unfold list_slice, slice_index.
  destruct (Z.ltb_spec left 0), (Z.ltb_spec (right + 1) 0); try lia.
  replace (Z.to_nat _) with 0%nat by lia. apply take_0.
Qed.

Lemma evict_length {K} cap (od : odict K) :
  0 <= cap ->
  Z.of_nat (length od) <= cap + 1 ->
  Z.of_nat (length (evict cap od)) = Z.min (Z.of_nat (length od)) cap.
Proof.
  intros Hcap Hlen. unfold evict. destruct (Z.gtb_spec (Z.of_nat (length od)) cap).
  - destruct od; cbn [length tail] in *; lia.
  - lia.
Qed.

Lemma evict_keeps_last {K} `{EqDecision K} cap (od : odict K) key value :
  1 <= cap -> key ∉ od.*1 ->
  od_getitem key (evict cap (od ++ [(key, value)])) = Ok value.
Proof.
  intros Hcap Hnin. unfold evict.
  destruct (Z.gtb_spec (Z.of_nat (length (od ++ [(key, value)]))) cap) as [Hgt|_].
  - destruct od as [|e od]; cbn [length tail app] in *; [lia|].
    apply od_getitem_app_r. intros Hin. apply Hnin. rewrite fmap_cons. by right.
  - by apply od_getitem_app_r.
Qed.

(** C10. A range-sum call with 0 <= right < left < N on a key that is not
    cached succeeds with 0 and leaves the array alone; it counts a miss and
    stores ((left, right), 0) as the newest entry, evicting the oldest entry
    when the cache was full, so the entry takes a slot like any other. *)
Theorem range_sum_empty_range_cached (w : World) (left right : Z) :
  0 <= right < left /\ left < Z.of_nat (length (array w)) ->
  1 <= capacity (cache w) ->
  (left, right) ∉ keys (cache w) ->
  exists c',
    range_sum_with_cache left right w = (Ok 0, mkWorld (array w) c') /\
    _od c' =
      evict (capacity (cache w)) (_od (cache w) ++ [((left, right), 0)]) /\
    od_getitem (left, right) (_od c') = Ok 0 /\
    (Z.of_nat (length (_od (cache w))) <= capacity (cache w) ->
     Z.of_nat (length (_od c')) =
       Z.min (Z.of_nat (length (_od (cache w))) + 1) (capacity (cache w))) /\
    capacity c' = capacity (cache w) /\
    hits c' = hits (cache w) /\
    misses c' = misses (cache w) + 1.
Proof.
  intros Hlr Hcap Hnin.
  pose proof (range_sum_with_cache_miss left right w Hnin) as Hrun.
  simpl in Hrun. rewrite list_slice_empty in Hrun by done.
  eexists. split; [exact Hrun|]. simpl.
  split; [done|]. split; [by apply evict_keeps_last|].
  split; [|done].
  intros Hlen. rewrite evict_length.
  - rewrite length_app. simpl. lia.
  - lia.
  - rewrite length_app. simpl. lia.
Qed.

Lemma range_sum_empty_range_cached_witness :
  let w := mkWorld [1; 2; 3; 4] (mkLRUCache 2 [((0, 1), 3); ((2, 3), 7)] 0 2) in
  (0 <= 1 < 3 /\ 3 < Z.of_nat (length (array w))) /\
  1 <= capacity (cache w) /\
  ((3, 1) ∉ keys (cache w)) /\
  exists c',
    range_sum_with_cache 3 1 w = (Ok 0, mkWorld (array w) c') /\
    _od c' = [((2, 3), 7); ((3, 1), 0)].
Proof.
  intros w.
  assert (Hlr : 0 <= 1 < 3 /\ 3 < Z.of_nat (length (array w))) by (simpl; lia).
  assert (Hcap : 1 <= capacity (cache w)) by (simpl; lia).
  assert (Hnin : (3, 1) ∉ keys (cache w)).
  { apply (bool_decide_unpack _). vm_compute. exact I. }
  split; [exact Hlr|]. split; [exact Hcap|]. split; [exact Hnin|].
  destruct (range_sum_empty_range_cached w 3 1 Hlr Hcap Hnin)
    as (c' & Hrun & Hod & _).
  exists c'. split; [exact Hrun|]. rewrite Hod. reflexivity.
Defined.

(** ** Properties of the cache kept by every call *)

Lemma on_cache_state {A} (m : M (LRUCache Key) A) (w : World) :
  (on_cache m w).2 = mkWorld (array w) (m (cache w)).2.
Proof. unfold on_cache. by destruct (m (cache w)). Qed.

Lemma get_Ok {K} `{EqDecision K} (key : K) (c : LRUCache K) :
  exists v, (get key c).1 = Ok v.
Proof.
  destruct (od_getitem key (_od c)) as [v|e] eqn:Hg.
  - rewrite (get_hit _ _ _ Hg). eauto.
  - apply od_getitem_Raise in Hg. rewrite (get_miss _ _ Hg). eauto.
Qed.

(** The cache after a range sum is the cache after the lookup, or after the
    lookup and a store under the same key; the array is as before. *)
Lemma range_sum_with_cache_state left right w :
  let c1 := (get (left, right) (cache w)).2 in
  (range_sum_with_cache left right w).2 = mkWorld (array w) c1 \/
  exists total,
    (range_sum_with_cache left right w).2 =
      mkWorld (array w) (put (left, right) total c1).2.
Proof.
  intros c1. subst c1.
  destruct (od_getitem (left, right) (_od (cache w))) as [v|e] eqn:Hg.
  - rewrite (get_hit _ _ _ Hg). destruct (decide (v = -1)) as [->|Hne].
    + right. eexists. rewrite (range_sum_with_cache_sentinel _ _ _ Hg).
      rewrite put_run. simpl. by rewrite od_remove_moved.
    + left. by rewrite (range_sum_with_cache_hit _ _ _ _ Hg Hne).
  - apply od_getitem_Raise in Hg. rewrite (get_miss _ _ Hg).
    right. eexists. rewrite (range_sum_with_cache_miss _ _ _ Hg).
    rewrite put_run. simpl. by rewrite od_remove_absent.
Qed.

Lemma update_with_cache_state index value w :
  (update_with_cache index value w).2 = w \/
  exists arr',
    length arr' = length (array w) /\
    (update_with_cache index value w).2 =
      mkWorld arr' (with_entries (cache w) (invalidate index (_od (cache w)))).
Proof.
  destruct (list_setitem index value (array w)) as [arr'|e] eqn:Hset.
  - right. exists arr'. split; [by eapply list_setitem_length|].
    by rewrite (update_with_cache_Ok _ _ _ _ Hset).
  - left. by rewrite (update_with_cache_Raise _ _ _ _ Hset).
Qed.

Section Preservation.
Variable P : LRUCache Key -> Prop.
Variable allowed : Key -> Prop.
Variable updates : Prop.

Hypothesis P_get : forall key c, allowed key -> P c -> P (get key c).2.
Hypothesis P_put :
  forall key value c, allowed key -> P c -> P (put key value c).2.
Hypothesis P_invalidate :
  forall index c, updates -> P c ->
    P (with_entries c (invalidate index (_od c))).

Lemma state_after_preserves c w :
  call_on allowed updates c -> P (cache w) -> P (cache (state_after c w)).
Proof using P_get P_put P_invalidate.
  destruct c as [key|key value|left right|index value]; simpl;
    intros Hok HP.
  - rewrite on_cache_state. simpl. by apply P_get.
  - rewrite on_cache_state. simpl. by apply P_put.
  - destruct (range_sum_with_cache_state left right w) as [-> | [total ->]];
      simpl; [|apply P_put; [done|]]; by apply P_get.
  - destruct (update_with_cache_state index value w) as [-> | (arr' & _ & ->)];
      simpl; [done|]. by apply P_invalidate.
Qed.

Lemma after_preserves calls w :
  Forall (call_on allowed updates) calls ->
  P (cache w) -> P (cache (after calls w)).
Proof using P_get P_put P_invalidate.
  unfold after. revert w.
  induction calls as [|c calls IH]; intros w Hok HP; [done|].
  apply Forall_cons in Hok as [Hc Hok]. simpl.
  apply IH; [done|]. by apply state_after_preserves.
Qed.
End Preservation.

Lemma call_on_True calls :
  Forall (call_on (fun _ => True) True) calls.
Proof. apply Forall_forall. by intros [| | |]. Qed.

(** ** The capacity bound *)

Section CapacityFacts.
Context {K : Type} `{EqDecision K}.
Implicit Types (od : odict K) (c : LRUCache K) (key : K).

Lemma od_remove_length_present key od :
  key ∈ od.*1 -> (length (od_remove key od) < length od)%nat.
Proof.
  intros Hin. apply list_elem_of_fmap in Hin as (e & -> & He).
  unfold od_remove. apply (length_filter_lt _ _ e); [done|]. by intros Hne.
Qed.

Lemma od_remove_length_NoDup key od :
  NoDup od.*1 -> key ∈ od.*1 ->
  S (length (od_remove key od)) = length od.
Proof.
  unfold od_remove. induction od as [|[k v] od IH]; simpl; intros Hnd Hin.
  - inversion Hin.
  - apply NoDup_cons in Hnd as [Hk Hnd]. rewrite filter_cons. simpl.
    destruct (decide (k <> key)) as [Hne|Heq].
    + simpl. f_equal. apply IH; [done|].
      apply elem_of_cons in Hin as [->|Hin]; [done|done].
    + apply dec_stable in Heq. subst k. f_equal.
      fold (od_remove key od). by rewrite od_remove_absent.
Qed.

Lemma od_moved_NoDup key od v :
  NoDup od.*1 -> NoDup (od_remove key od ++ [(key, v)]).*1.
Proof.
  intros Hnd. rewrite fmap_app. apply NoDup_app. split; [|split].
  - by apply od_remove_NoDup.
  - intros k Hk Hin. simpl in Hin. apply list_elem_of_singleton in Hin.
    subst k. by apply od_remove_keys in Hk.
  - simpl. apply NoDup_singleton.
Qed.

Lemma evict_NoDup cap od : NoDup od.*1 -> NoDup (evict cap od).*1.
Proof.
  unfold evict. destruct (_ >? _); [|done].
  destruct od as [|e od]; [done|]. simpl. rewrite NoDup_cons. tauto.
Qed.

Lemma evict_bound cap od :
  0 <= cap -> Z.of_nat (length od) <= cap + 1 ->
  Z.of_nat (length (evict cap od)) <= cap.
Proof. intros Hcap Hlen. rewrite evict_length by done. lia. Qed.

Lemma within_capacity_get C key c :
  within_capacity C c -> within_capacity C (get key c).2.
Proof.
  intros (Hcap & Hlen & Hnd).
  destruct (od_getitem key (_od c)) as [v|e] eqn:Hg.
  - rewrite (get_hit _ _ _ Hg). unfold within_capacity. simpl.
    split; [done|]. split.
    + rewrite length_app. simpl.
      assert (Hin : key ∈ (_od c).*1).
      { apply od_getitem_Ok in Hg. apply list_elem_of_fmap. by exists (key, v). }
      apply od_remove_length_present in Hin. lia.
    + by apply od_moved_NoDup.
  - apply od_getitem_Raise in Hg. by rewrite (get_miss _ _ Hg).
Qed.

Lemma within_capacity_put C key value c :
  within_capacity C c -> within_capacity C (put key value c).2.
Proof.
  intros (Hcap & Hlen & Hnd). rewrite put_run. unfold within_capacity.
  simpl. split; [done|]. rewrite Hcap. split.
  - apply evict_bound; [lia|]. rewrite length_app. simpl.
    pose proof (od_remove_length key (_od c)). lia.
  - by apply evict_NoDup, od_moved_NoDup.
Qed.

(** Storing under a resident key replaces its entry: same keys, same
    number of entries, the new value. *)
Lemma put_resident C key value c :
  within_capacity C c -> key ∈ keys c ->
  let c' := (put key value c).2 in
  length (_od c') = length (_od c) /\
  _od c' = od_remove key (_od c) ++ [(key, value)] /\
  od_getitem key (_od c') = Ok value /\
  NoDup (keys c') /\
  (forall k, k ∈ keys c' <-> k ∈ keys c).
Proof.
  intros (Hcap & Hlen & Hnd) Hin. rewrite put_run. simpl.
  pose proof (od_remove_length_NoDup key (_od c) Hnd Hin) as Hrem.
  assert (Hev : evict (capacity c) (od_remove key (_od c) ++ [(key, value)])
                = od_remove key (_od c) ++ [(key, value)]).
  { unfold evict. rewrite length_app. simpl.
    destruct (Z.gtb_spec (Z.of_nat (length (od_remove key (_od c)) + 1)) (capacity c));
      [lia|done]. }
  rewrite Hev. split; [rewrite length_app; simpl; lia|].
  split; [done|]. split; [apply od_getitem_moved|].
  unfold keys, od_keys. simpl. split; [by apply od_moved_NoDup|].
  intros k. rewrite fmap_app, elem_of_app. simpl.
  rewrite list_elem_of_singleton. unfold od_remove.
  rewrite !list_elem_of_fmap. split.
  - intros [(e & -> & He) | ->]; [|by apply list_elem_of_fmap in Hin].
    apply list_elem_of_filter in He as [_ He]. eauto.
  - intros (e & -> & He). destruct (decide (e.1 = key)) as [Heq|Hne];
      [by right|left].
    exists e. split; [done|]. by apply list_elem_of_filter.
Qed.
End CapacityFacts.

Lemma within_capacity_invalidate C index (c : LRUCache Key) :
  within_capacity C c ->
  within_capacity C (with_entries c (invalidate index (_od c))).
Proof.
  intros (Hcap & Hlen & Hnd). unfold within_capacity, invalidate. simpl.
  split; [done|]. split.
  - pose proof (length_filter (fun e : Key * Z => ~ overlaps index e.1) (_od c)).
    lia.
  - eapply sublist_NoDup; [exact Hnd|]. apply fmap_sublist, sublist_filter.
Qed.

(** C5. A cache constructed with capacity C, after any sequence of lookups,
    stores, range sums and updates (each taken to its end, returned or
    raised), holds at most C entries, under pairwise distinct keys, and its
    capacity is still C.  Storing under a key that is resident replaces its
    entry: the same keys and the same number of entries, the stored value
    new. *)
Theorem capacity_bound
    (C : Z) (c0 : LRUCache Key) (arr : list Z) (calls : list call) :
  LRUCache_init C = Ok c0 ->
  let c := cache (after calls (mkWorld arr c0)) in
  1 <= C /\
  capacity c = C /\
  Z.of_nat (length (_od c)) <= C /\
  NoDup (keys c) /\
  forall key value,
    key ∈ keys c ->
    let c' := (put key value c).2 in
    length (_od c') = length (_od c) /\
    od_getitem key (_od c') = Ok value /\
    NoDup (keys c') /\
    (forall k, k ∈ keys c' <-> k ∈ keys c).
Proof.
  intros Hinit c.
  assert (HC : 1 <= C /\ c0 = mkLRUCache C [] 0 0).
  { unfold LRUCache_init in Hinit. destruct (Z.leb_spec C 0); [discriminate|].
    split; [lia|congruence]. }
  destruct HC as [HC ->].
  assert (Hwc : within_capacity C c).
  { subst c. apply (after_preserves (within_capacity C) (fun _ => True) True).
    - intros. by apply within_capacity_get.
    - intros. by apply within_capacity_put.
    - intros. by apply within_capacity_invalidate.
    - apply call_on_True.
    - simpl. repeat split; simpl; [lia|constructor]. }
  split; [done|]. destruct Hwc as (Hcap & Hlen & Hnd).
  split; [done|]. split; [done|]. split; [done|].
  intros key value Hin.
  destruct (put_resident C key value c) as (H1 & _ & H2 & H3 & H4); done.
Qed.

Lemma capacity_bound_witness :
  let c0 := mkLRUCache 2 [] 0 0 in
  let calls := [CallRangeSum 2 5; CallRangeSum 2 5; CallRangeSum 0 1;
                CallRangeSum 6 9; CallPut (6, 9) 0; CallUpdate 3 100;
                CallGet (0, 1)] in
  let c := cache (after calls (mkWorld [1; 2; 3; 4; 5; 6; 7; 8; 9; 10] c0)) in
  LRUCache_init 2 = Ok c0 /\
  _od c = [((6, 9), 0); ((0, 1), 3)] /\
  Z.of_nat (length (_od c)) <= 2.
Proof.
  intros c0 calls c.
  assert (Hinit : LRUCache_init 2 = Ok c0) by reflexivity.
  split; [exact Hinit|]. split; [reflexivity|].
  exact (proj1 (proj2 (proj2
    (capacity_bound 2 c0 [1; 2; 3; 4; 5; 6; 7; 8; 9; 10] calls Hinit)))).
Defined.

(** ** Construction and the counters *)

Lemma counters_get {K} `{EqDecision K} (key : K) (c : LRUCache K) :
  hits c <= hits (get key c).2 /\ misses c <= misses (get key c).2.
Proof.
  destruct (od_getitem key (_od c)) as [v|e] eqn:Hg.
  - rewrite (get_hit _ _ _ Hg). simpl. lia.
  - apply od_getitem_Raise in Hg. rewrite (get_miss _ _ Hg). simpl. lia.
Qed.

(** C8. Constructing a cache with a capacity of 0 or less raises ValueError
    (the invalid-configuration condition) and yields no cache; with a
    capacity of 1 or more it yields an empty cache with both counters 0.
    Whatever calls follow, from any state, neither counter decreases. *)
Theorem construction_and_counters (cap : Z) :
  (cap <= 0 -> LRUCache_init (K := Key) cap = Raise ValueError) /\
  (1 <= cap -> LRUCache_init (K := Key) cap = Ok (mkLRUCache cap [] 0 0)) /\
  forall (calls : list call) (w : World),
    hits (cache w) <= hits (cache (after calls w)) /\
    misses (cache w) <= misses (cache (after calls w)).
Proof.
  unfold LRUCache_init. split; [|split].
  - intros Hcap. by destruct (Z.leb_spec cap 0); [|lia].
  - intros Hcap. by destruct (Z.leb_spec cap 0); [lia|].
  - intros calls w.
    apply (after_preserves
             (fun c => hits (cache w) <= hits c /\ misses (cache w) <= misses c)
             (fun _ => True) True).
    + intros key c _ [Hh Hm]. pose proof (counters_get key c). lia.
    + intros key value c _ HP. by rewrite put_run.
    + by intros index c _ HP.
    + apply call_on_True.
    + lia.
Qed.

Lemma construction_and_counters_witness :
  LRUCache_init (K := Key) 0 = Raise ValueError /\
  LRUCache_init (K := Key) (-3) = Raise ValueError /\
  LRUCache_init (K := Key) 1 = Ok (mkLRUCache 1 [] 0 0) /\
  let w := mkWorld [1; 2; 3] (mkLRUCache 1 [] 0 0) in
  let w' := after [CallRangeSum 0 1; CallRangeSum 0 1; CallUpdate 7 0;
                   CallGet (2, 2)] w in
  hits (cache w') = 1 /\ misses (cache w') = 2 /\
  hits (cache w) <= hits (cache w').
Proof.
  split; [apply (proj1 (construction_and_counters 0)); lia|].
  split; [apply (proj1 (construction_and_counters (-3))); lia|].
  split; [apply (proj1 (proj2 (construction_and_counters 1))); lia|].
  intros w w'. split; [reflexivity|]. split; [reflexivity|].
  apply (proj2 (proj2 (construction_and_counters 1))).
Defined.

(** ** Eviction order *)

Section EvictionFacts.
Context {K : Type} `{EqDecision K}.
Implicit Types (od kvs : odict K) (c : LRUCache K) (key k : K).

Lemma put_fresh key value c :
  key ∉ keys c ->
  put key value c =
    (Ok tt, with_entries c (evict (capacity c) (_od c ++ [(key, value)]))).
Proof.
  intros Hnin. rewrite put_run. by rewrite od_remove_absent.
Qed.

(** Evicting right after a store, or only when everything is stored,
    leaves the same newest [cap] entries. *)
Lemma evict_then_drop cap od rest :
  Z.of_nat (length od) <= cap + 1 ->
  drop (Z.to_nat (Z.of_nat (length (evict cap od ++ rest)) - cap))
    (evict cap od ++ rest) =
  drop (Z.to_nat (Z.of_nat (length (od ++ rest)) - cap)) (od ++ rest).
Proof.
  intros Hlen. unfold evict.
  destruct (Z.gtb_spec (Z.of_nat (length od)) cap) as [Hgt|Hle]; [|done].
  destruct od as [|e od]; [done|]. cbn [tail app length] in *.
  rewrite !length_app.
  replace (Z.to_nat (Z.of_nat (S (length od + length rest)) - cap))
    with (S (Z.to_nat (Z.of_nat (length od + length rest) - cap))) by lia.
  done.
Qed.

(** Storing keys that are new and pairwise distinct keeps the newest
    [capacity] entries of the old entries followed by the new ones. *)
Lemma put_all_fresh kvs c :
  NoDup ((_od c).*1 ++ kvs.*1) ->
  Z.of_nat (length (_od c)) <= capacity c ->
  put_all kvs c =
    (Ok tt,
     with_entries c
       (drop (Z.to_nat (Z.of_nat (length (_od c ++ kvs)) - capacity c))
          (_od c ++ kvs))).
Proof.
  revert c. induction kvs as [|[k v] kvs IH]; intros c Hnd Hlen.
  - rewrite app_nil_r. replace (Z.to_nat _) with 0%nat by lia.
    by rewrite drop_0, with_entries_id.
  - unfold put_all in *. cbn [for_each]. unfold mbind, M_bind.
    assert (Hk : k ∉ keys c).
    { intros Hin. apply NoDup_app in Hnd as (_ & Hdisj & _).
      apply (Hdisj k Hin). rewrite fmap_cons. left. }
    simpl fst. simpl snd. rewrite (put_fresh _ _ _ Hk).
    set (od' := evict (capacity c) (_od c ++ [(k, v)])).
    assert (Hnd' : NoDup (od'.*1 ++ kvs.*1)).
    { eapply sublist_NoDup; [exact Hnd|]. rewrite fmap_cons.
      rewrite (cons_middle (k, v).1), app_assoc.
      apply sublist_app; [|done]. simpl fst.
      change [k] with ([(k, v)].*1). rewrite <- fmap_app.
      apply fmap_sublist. subst od'. unfold evict.
      destruct (_ >? _); [|done]. destruct (_od c ++ [(k, v)]); [done|].
      simpl. by apply sublist_cons. }
    assert (Hlen1 : Z.of_nat (length (_od c ++ [(k, v)])) <= capacity c + 1).
    { rewrite length_app. simpl. lia. }
    assert (Hlen' : Z.of_nat (length od') <= capacity c).
    { subst od'. apply evict_bound; [lia|done]. }
    rewrite (IH (with_entries c od')) by done.
    unfold with_entries. cbn [capacity _od hits misses].
    subst od'. rewrite evict_then_drop by done.
    by rewrite <- app_assoc.
Qed.
End EvictionFacts.

Lemma filter_split {A} (P : A -> Prop) `{forall x, Decision (P x)}
    (l l1 l2 : list A) (x : A) :
  filter P l = l1 ++ x :: l2 ->
  exists m1 m2, l = m1 ++ x :: m2 /\ filter P m1 = l1 /\ filter P m2 = l2.
Proof.
  revert l1. induction l as [|a l IH]; intros l1 Hf.
  - by destruct l1.
  - rewrite filter_cons in Hf. destruct (decide (P a)) as [Ha|Ha].
    + destruct l1 as [|b l1]; simpl in Hf; injection Hf as -> Hf.
      * exists [], l. by rewrite filter_nil.
      * destruct (IH _ Hf) as (m1 & m2 & -> & <- & <-).
        exists (b :: m1), m2. by rewrite filter_cons_True.
    + destruct (IH _ Hf) as (m1 & m2 & -> & <- & <-).
      exists (a :: m1), m2. by rewrite filter_cons_False.
Qed.

Lemma snoc_split {A} (l l1 l2 : list A) (x y : A) :
  l ++ [x] = l1 ++ y :: l2 -> x <> y ->
  exists l2', l2 = l2' ++ [x] /\ l = l1 ++ y :: l2'.
Proof.
  intros Heq Hne. destruct l2 as [|z l2 _] using rev_ind.
  - apply app_inj_tail in Heq as [_ ?]. congruence.
  - change (l1 ++ y :: l2 ++ [z]) with (l1 ++ (y :: l2) ++ [z]) in Heq.
    rewrite app_assoc in Heq. apply app_inj_tail in Heq as [-> ->]. eauto.
Qed.

Section FollowsFacts.
Context {K : Type} `{EqDecision K}.
Implicit Types (od : odict K) (c : LRUCache K) (key k : K).

Lemma follows_resident k k' od :
  follows k k' od -> k' ∈ od.*1 -> k ∈ od.*1.
Proof.
  intros Hf Hin. apply list_elem_of_fmap in Hin as ([k0 v'] & -> & He).
  apply list_elem_of_split in He as (l1 & l2 & ->).
  specialize (Hf l1 v' l2 eq_refl).
  rewrite fmap_app, fmap_cons, elem_of_app, elem_of_cons. auto.
Qed.

Lemma follows_snoc_self k k' od v :
  k <> k' -> follows k k' (od ++ [(k, v)]).
Proof.
  intros Hne l1 v' l2 Heq.
  apply snoc_split in Heq as (l2' & -> & _); [|congruence].
  rewrite fmap_app, elem_of_app. right. simpl. left.
Qed.

Lemma follows_moved k k' key od v :
  key <> k' -> follows k k' od ->
  follows k k' (od_remove key od ++ [(key, v)]).
Proof.
  intros Hne Hf. destruct (decide (key = k)) as [->|Hk].
  { by apply follows_snoc_self. }
  intros l1 v' l2 Heq.
  apply snoc_split in Heq as (l2' & -> & Heq); [|congruence].
  unfold od_remove in Heq.
  apply filter_split in Heq as (m1 & m2 & Hod & _ & <-).
  specialize (Hf _ _ _ Hod).
  rewrite fmap_app, elem_of_app. left.
  apply list_elem_of_fmap in Hf as (e & -> & He).
  apply list_elem_of_fmap. exists e. split; [done|].
  apply list_elem_of_filter. split; [|done]. congruence.
Qed.

Lemma follows_evict k k' cap od :
  follows k k' od -> follows k k' (evict cap od).
Proof.
  unfold evict. destruct (_ >? _); [|done].
  destruct od as [|e od]; [done|]. simpl.
  intros Hf l1 v' l2 ->. by apply (Hf (e :: l1) v' l2).
Qed.

Lemma follows_get k k' key c :
  key <> k' -> follows k k' (_od c) -> follows k k' (_od (get key c).2).
Proof.
  intros Hne Hf. destruct (od_getitem key (_od c)) as [v|e] eqn:Hg.
  - rewrite (get_hit _ _ _ Hg). simpl. by apply follows_moved.
  - apply od_getitem_Raise in Hg. by rewrite (get_miss _ _ Hg).
Qed.

Lemma follows_put k k' key value c :
  key <> k' -> follows k k' (_od c) ->
  follows k k' (_od (put key value c).2).
Proof.
  intros Hne Hf. rewrite put_run. simpl.
  by apply follows_evict, follows_moved.
Qed.
End FollowsFacts.

(** C4. (1) Storing C+1 entries under pairwise distinct keys in a cache
    freshly constructed with capacity C leaves the entries after the first,
    in insertion order: the first-inserted key alone is evicted.  (2) A
    lookup of a resident key returns its value and moves its entry to the
    most-recently-used end, the other entries keeping their order.  (3) From
    then on, through any lookups, stores and range sums that do not touch
    another key k', the looked-up key stays behind k' in the eviction
    order: as long as k' is resident, so is the looked-up key. *)
Theorem lru_eviction_order :
  (forall (C : Z) (c0 : LRUCache Key) (kvs : odict Key),
     LRUCache_init C = Ok c0 ->
     NoDup kvs.*1 ->
     Z.of_nat (length kvs) = C + 1 ->
     put_all kvs c0 = (Ok tt, mkLRUCache C (tail kvs) 0 0)) /\
  (forall (c : LRUCache Key) (key : Key) (v : Z),
     od_getitem key (_od c) = Ok v ->
     get key c =
       (Ok v, mkLRUCache (capacity c) (od_remove key (_od c) ++ [(key, v)])
                (hits c + 1) (misses c))) /\
  (forall (c : LRUCache Key) (k k' : Key) (v : Z)
          (arr : list Z) (calls : list call),
     od_getitem k (_od c) = Ok v ->
     k <> k' ->
     Forall (call_on (fun key => key <> k') False) calls ->
     let c' := cache (after calls (mkWorld arr (get k c).2)) in
     follows k k' (_od c') /\ (k' ∈ keys c' -> k ∈ keys c')).
Proof.
  split; [|split].
  - intros C c0 kvs Hinit Hnd Hlen.
    unfold LRUCache_init in Hinit. destruct (Z.leb_spec C 0); [discriminate|].
    injection Hinit as <-.
    rewrite put_all_fresh; [|by simpl|simpl; lia].
    unfold with_entries. simpl.
    replace (Z.to_nat _) with 1%nat by lia. by destruct kvs.
  - intros c key v Hg. by apply get_hit.
  - intros c k k' v arr calls Hg Hne Hcalls c'.
    assert (Hf : follows k k' (_od c')).
    { subst c'.
      apply (after_preserves (fun c => follows k k' (_od c))
               (fun key => key <> k') False).
      - intros. by apply follows_get.
      - intros. by apply follows_put.
      - by intros.
      - done.
      - simpl. rewrite (get_hit _ _ _ Hg). simpl. by apply follows_snoc_self. }
    split; [done|]. by apply follows_resident.
Qed.

Lemma lru_eviction_order_witness :
  let c0 := mkLRUCache 2 [] 0 0 in
  put_all [((0, 0), 1); ((1, 1), 2); ((2, 2), 3)] c0 =
    (Ok tt, mkLRUCache 2 [((1, 1), 2); ((2, 2), 3)] 0 0) /\
  let c := mkLRUCache 2 [((1, 1), 2); ((2, 2), 3)] 0 0 in
  get (1, 1) c = (Ok 2, mkLRUCache 2 [((2, 2), 3); ((1, 1), 2)] 1 0) /\
  let c' := cache (after [CallPut (3, 3) 4]
                     (mkWorld [] (get (1, 1) c).2)) in
  _od c' = [((1, 1), 2); ((3, 3), 4)] /\
  ((2, 2) ∈ keys c' -> (1, 1) ∈ keys c').
Proof.
  intros c0.
  destruct lru_eviction_order as (Hfill & Hget & Hdefer).
  split.
  { apply (Hfill 2 c0 [((0, 0), 1); ((1, 1), 2); ((2, 2), 3)]).
    - reflexivity.
    - apply (bool_decide_unpack _). vm_compute. exact I.
    - reflexivity. }
  intros c. split.
  { apply (Hget c (1, 1) 2). reflexivity. }
  intros c'. split; [reflexivity|].
  apply (Hdefer c (1, 1) (2, 2) 2 [] [CallPut (3, 3) 4]).
  - reflexivity.
  - discriminate.
  - constructor; [simpl; discriminate|constructor].
Defined.

(** ** Freshness *)

Lemma list_slice_in_range arr left right :
  0 <= left <= right -> right < Z.of_nat (length arr) ->
  list_slice arr left (right + 1) =
    take (Z.to_nat (right - left + 1)) (drop (Z.to_nat left) arr).
Proof.
  intros Hlr Hr. unfold list_slice, slice_index.
  destruct (Z.ltb_spec left 0), (Z.ltb_spec (right + 1) 0); try lia.
  do 2 f_equal; lia.
Qed.

Lemma list_slice_insert_outside arr left right index value :
  0 <= left <= right -> right < Z.of_nat (length arr) ->
  0 <= index -> ~ (left <= index <= right) ->
  list_slice (<[Z.to_nat index := value]> arr) left (right + 1) =
  list_slice arr left (right + 1).
Proof.
  intros Hlr Hr Hi Hout.
  rewrite !list_slice_in_range by (rewrite ?length_insert; lia).
  destruct (decide (index < left)) as [Hlt|Hge].
  - by rewrite drop_insert_lt by lia.
  - rewrite drop_insert_ge by lia. by rewrite take_insert_ge by lia.
Qed.

Lemma fresh_entries_moved arr od key v :
  fresh_entries arr od -> (key, v) ∈ od ->
  fresh_entries arr (od_remove key od ++ [(key, v)]).
Proof.
  unfold fresh_entries. rewrite !Forall_forall. intros Hfr Hin e He.
  apply elem_of_app in He as [He|He].
  - apply list_elem_of_filter in He as [_ He]. by apply Hfr.
  - apply list_elem_of_singleton in He as ->. by apply Hfr.
Qed.

Lemma fresh_entries_stored arr od left right cap :
  fresh_entries arr od ->
  0 <= left <= right -> right < Z.of_nat (length arr) ->
  fresh_entries arr
    (evict cap
       (od_remove (left, right) od ++
        [((left, right), sum (list_slice arr left (right + 1)))])).
Proof.
  unfold fresh_entries. rewrite !Forall_forall. intros Hfr Hlr Hr e He.
  assert (He' : e ∈ od_remove (left, right) od ++
                    [((left, right), sum (list_slice arr left (right + 1)))]).
  { revert He. unfold evict. destruct (_ >? _); [|done].
    destruct (_ ++ _); [done|]. simpl. by right. }
  apply elem_of_app in He' as [Hin|Hin].
  - apply list_elem_of_filter in Hin as [_ Hin]. by apply Hfr.
  - apply list_elem_of_singleton in Hin as ->. simpl. done.
Qed.

Lemma fresh_entries_invalidate arr od index value :
  fresh_entries arr od -> 0 <= index ->
  fresh_entries (<[Z.to_nat index := value]> arr) (invalidate index od).
Proof.
  unfold fresh_entries, invalidate. rewrite !Forall_forall.
  intros Hfr Hi e He. apply list_elem_of_filter in He as [Hout He].
  destruct (Hfr e He) as [[Hlr Hr] Hsum]. rewrite length_insert.
  split; [done|]. by rewrite list_slice_insert_outside.
Qed.

(** The invariant of a run. *)
Lemma reachable_fresh arr0 C w :
  reachable arr0 C w ->
  fresh_entries (array w) (_od (cache w)) /\
  length (array w) = length arr0.
Proof.
  induction 1 as [c0 Hinit|w left right Hw [IHfr IHlen] Hlr Hr
                 |w index value Hw [IHfr IHlen] Hi].
  - unfold LRUCache_init in Hinit. destruct (_ <=? _); [discriminate|].
    injection Hinit as <-. simpl. split; [constructor|done].
  - destruct (od_getitem (left, right) (_od (cache w))) as [v|e] eqn:Hg.
    + destruct (decide (v = -1)) as [->|Hne].
      * rewrite (range_sum_with_cache_sentinel _ _ _ Hg). simpl.
        split; [|done]. by apply fresh_entries_stored.
      * rewrite (range_sum_with_cache_hit _ _ _ _ Hg Hne). simpl.
        split; [|done]. apply fresh_entries_moved; [done|].
        by apply od_getitem_Ok.
    + apply od_getitem_Raise in Hg.
      rewrite (range_sum_with_cache_miss _ _ _ Hg). simpl.
      split; [|done].
      pose proof (fresh_entries_stored _ _ left right (capacity (cache w))
                    IHfr Hlr Hr) as Hst.
      by rewrite od_remove_absent in Hst.
  - rewrite (update_with_cache_Ok _ _ _ _ (list_setitem_in_range _ value _ Hi)).
    simpl. rewrite length_insert. split; [|done].
    apply fresh_entries_invalidate; [done|lia].
Qed.

(** C1. In every state a run reaches from a fresh cache by range sums with
    0 <= left <= right < N and updates with 0 <= index < N, a range sum
    with bounds in the array returns, without raising, the sum of the
    elements the array holds now at positions left to right, whether the
    key was cached or not; an update with its index in the array does not
    raise either. *)
Theorem freshness (arr0 : list Z) (C : Z) (w : World) (left right : Z) :
  reachable arr0 C w ->
  0 <= left <= right -> right < Z.of_nat (length (array w)) ->
  (range_sum_with_cache left right w).1 =
    Ok (sum (list_slice (array w) left (right + 1))) /\
  (range_sum_with_cache left right w).1 =
    (range_sum_no_cache left right (array w)).1 /\
  list_slice (array w) left (right + 1) =
    take (Z.to_nat (right - left + 1)) (drop (Z.to_nat left) (array w)) /\
  forall index value,
    0 <= index < Z.of_nat (length (array w)) ->
    (update_with_cache index value w).1 = Ok tt.
Proof.
  intros Hw Hlr Hr.
  cut ((range_sum_with_cache left right w).1 =
         Ok (sum (list_slice (array w) left (right + 1)))).
  { intros Hsum. split; [done|]. split; [done|]. split.
    - by apply list_slice_in_range.
    - intros index value Hi.
      by rewrite (update_with_cache_Ok _ _ _ _
                    (list_setitem_in_range _ value _ Hi)). }
  destruct (reachable_fresh _ _ _ Hw) as [Hfr _].
  destruct (od_getitem (left, right) (_od (cache w))) as [v|e] eqn:Hg.
  - destruct (decide (v = -1)) as [->|Hne].
    + by rewrite (range_sum_with_cache_sentinel _ _ _ Hg).
    + rewrite (range_sum_with_cache_hit _ _ _ _ Hg Hne). simpl.
      apply od_getitem_Ok in Hg. unfold fresh_entries in Hfr.
      rewrite Forall_forall in Hfr. destruct (Hfr _ Hg) as [_ Hsum].
      simpl in Hsum. by rewrite Hsum.
  - apply od_getitem_Raise in Hg.
    by rewrite (range_sum_with_cache_miss _ _ _ Hg).
Qed.

Lemma freshness_witness :
  let arr0 := [1; 2; 3; 4; 5; 6; 7; 8; 9; 10] in
  let w0 := mkWorld arr0 (mkLRUCache 2 [] 0 0) in
  let w1 := (range_sum_with_cache 2 5 w0).2 in
  let w2 := (range_sum_with_cache 2 5 w1).2 in
  let w3 := (range_sum_with_cache 6 9 w2).2 in
  let w4 := (update_with_cache 3 100 w3).2 in
  reachable arr0 2 w4 /\
  0 <= 2 <= 5 /\
  5 < Z.of_nat (length (array w4)) /\
  _od (cache w3) = [((2, 5), 18); ((6, 9), 34)] /\
  _od (cache w4) = [((6, 9), 34)] /\
  (range_sum_with_cache 2 5 w4).1 = Ok 114.
Proof.
  intros arr0 w0 w1 w2 w3 w4.
  assert (Hw4 : reachable arr0 2 w4).
  { apply reach_update; [|simpl; lia].
    apply reach_range_sum; [|simpl; lia..].
    apply reach_range_sum; [|simpl; lia..].
    apply reach_range_sum; [|simpl; lia..].
    by apply reach_init. }
  assert (Hlr : 0 <= 2 <= 5) by lia.
  assert (Hr : 5 < Z.of_nat (length (array w4))) by (simpl; lia).
  split; [exact Hw4|]. split; [exact Hlr|]. split; [exact Hr|].
  split; [reflexivity|]. split; [reflexivity|].
  exact (proj1 (freshness arr0 2 w4 2 5 Hw4 Hlr Hr)).
Defined.


(** * Further properties of task_1.py *)

(** ** Store then look up *)

Section StoreLookupFacts.
Context {K : Type} `{EqDecision K}.
Implicit Types (od : odict K) (c : LRUCache K) (key : K).

(** With room for at least one entry, eviction after a store keeps the
    stored entry at the newest end, over the old entries or all but the
    oldest of them. *)
Lemma evict_snoc_shape cap od (x : K * Z) :
  1 <= cap ->
  exists od', evict cap (od ++ [x]) = od' ++ [x] /\ (od' = od \/ od' = tail od).
Proof.
  intros Hcap. unfold evict.
  destruct (Z.gtb_spec (Z.of_nat (length (od ++ [x]))) cap) as [Hgt|_].
  - destruct od as [|e od]; cbn [length app tail] in *; [lia|]. eauto.
  - eauto.
Qed.

Lemma tail_keys_absent key od : key ∉ od.*1 -> key ∉ (tail od).*1.
Proof.
  destruct od as [|e od]; [done|]. simpl. intros Hnin Hin.
  apply Hnin. by right.
Qed.

Lemma od_remove_snoc_absent key od v :
  key ∉ od.*1 -> od_remove key (od ++ [(key, v)]) = od.
Proof.
  intros Hnin. unfold od_remove. rewrite filter_app.
  rewrite filter_cons_False by (simpl; tauto).
  rewrite filter_nil, app_nil_r. by apply od_remove_absent.
Qed.

(** X1. In a cache with capacity 1 or more, a lookup right after a store
    under the same key returns the stored value and counts one hit and no
    miss; the entries are those the store left, with the key as the newest
    one. *)
Theorem put_then_get key value c :
  1 <= capacity c ->
  exists c',
    (put key value ;; get key) c = (Ok value, c') /\
    _od c' = (put key value c).2.(_od) /\
    last (keys c') = Some key /\
    capacity c' = capacity c /\
    hits c' = hits c + 1 /\
    misses c' = misses c.
Proof.
  intros Hcap. unfold mbind, M_bind. rewrite put_run.
  destruct (evict_snoc_shape (capacity c) (od_remove key (_od c)) (key, value) Hcap)
    as (od' & Hev & Hod').
  assert (Hnin : key ∉ od'.*1).
  { destruct Hod' as [-> | ->];
      [|apply tail_keys_absent]; apply od_remove_keys. }
  assert (Hg : od_getitem key (od' ++ [(key, value)]) = Ok value)
    by by apply od_getitem_app_r.
  rewrite Hev. erewrite get_hit by exact Hg. simpl.
  rewrite od_remove_snoc_absent by done.
  eexists. split; [reflexivity|]. simpl. split; [done|].
  unfold keys, od_keys. simpl. rewrite fmap_app. simpl.
  by rewrite last_snoc.
Qed.

End StoreLookupFacts.

Lemma put_then_get_witness :
  let c := mkLRUCache 2 [((0, 1), 3); ((2, 2), 3)] 4 5 in
  1 <= capacity c /\
  exists c',
    (put (5, 6) (-1) ;; get (5, 6)) c = (Ok (-1), c') /\
    _od c' = [((2, 2), 3); ((5, 6), -1)] /\
    hits c' = 5.
Proof.
  intros c. assert (Hcap : 1 <= capacity c) by (simpl; lia).
  split; [exact Hcap|].
  destruct (put_then_get (5, 6) (-1) c Hcap)
    as (c' & Hrun & Hod & _ & _ & Hhits & _).
  exists c'. split; [exact Hrun|]. split; [rewrite Hod; reflexivity|].
  rewrite Hhits. reflexivity.
Defined.

(** ** Queries repeated, queries after an update *)

Lemma evict_subseteq {K} cap (od : odict K) e :
  e ∈ evict cap od -> e ∈ od.
Proof.
  unfold evict. destruct (_ >? _); [|done].
  destruct od; [done|]. simpl. by right.
Qed.

(** A range sum on a cache whose newest store was this very sum. *)
Lemma range_sum_after_store (w1 : World) (left right : Z) (R : odict Key) :
  let total := sum (list_slice (array w1) left (right + 1)) in
  (left, right) ∉ R.*1 ->
  _od (cache w1) = evict (capacity (cache w1)) (R ++ [((left, right), total)]) ->
  (range_sum_with_cache left right w1).1 = Ok total /\
  array (range_sum_with_cache left right w1).2 = array w1 /\
  (1 <= capacity (cache w1) ->
   Z.of_nat (length R) <= capacity (cache w1) ->
   let c2 := cache (range_sum_with_cache left right w1).2 in
   _od c2 = _od (cache w1) /\
   hits c2 = hits (cache w1) + 1 /\
   misses c2 = misses (cache w1)).
Proof.
  intros total Hnin Hod1.
  destruct (od_getitem (left, right) (_od (cache w1))) as [v|e] eqn:Hg.
  - assert (v = total) as ->.
    { apply od_getitem_Ok in Hg. rewrite Hod1 in Hg.
      apply evict_subseteq, elem_of_app in Hg as [Hin|Hin].
      - exfalso. apply Hnin. apply list_elem_of_fmap. by exists ((left, right), v).
      - apply list_elem_of_singleton in Hin. congruence. }
    assert (Hshape : 1 <= capacity (cache w1) ->
              od_remove (left, right) (_od (cache w1)) ++ [((left, right), total)]
              = _od (cache w1)).
    { intros Hcap.
      destruct (evict_snoc_shape (K := Key) (capacity (cache w1)) R
                  ((left, right), total) Hcap)
        as (R' & Hev & HR').
      assert (Hod1' : _od (cache w1) = R' ++ [((left, right), total)])
        by (rewrite Hod1; exact Hev).
      rewrite Hod1'. f_equal. apply od_remove_snoc_absent.
      destruct HR' as [-> | ->]; [done|by apply tail_keys_absent]. }
    destruct (decide (total = -1)) as [Hm|Hne].
    + rewrite Hm in Hg. rewrite (range_sum_with_cache_sentinel _ _ _ Hg).
      simpl. fold total. split; [done|]. split; [done|].
      intros Hcap Hlen. rewrite (Hshape Hcap).
      split; [|done]. unfold evict.
      destruct (_ >? _) eqn:Hgt; [|done].
      exfalso. apply Z.gtb_lt in Hgt. rewrite Hod1 in Hgt.
      pose proof (evict_bound (K := Key) (capacity (cache w1))
                    (R ++ [((left, right), total)])) as Hb.
      rewrite length_app in Hb. simpl in Hb.
      specialize (Hb ltac:(lia) ltac:(lia)).
      exact (Z.lt_irrefl _ (Z.lt_le_trans _ _ _ Hgt Hb)).
    + rewrite (range_sum_with_cache_hit _ _ _ _ Hg Hne). simpl.
      split; [done|]. split; [done|]. intros Hcap _. by rewrite (Hshape Hcap).
  - apply od_getitem_Raise in Hg.
    rewrite (range_sum_with_cache_miss _ _ _ Hg). simpl. fold total.
    split; [done|]. split; [done|]. intros Hcap _. exfalso. apply Hg.
    rewrite Hod1.
    pose proof (evict_keeps_last (capacity (cache w1)) R (left, right) total Hcap Hnin)
      as Hlast.
    apply od_getitem_Ok in Hlast. apply list_elem_of_fmap.
    by exists ((left, right), total).
Qed.

(** X2. Asking the same range sum twice in a row gives the same answer
    twice and leaves the array alone.  In a cache within its capacity of 1
    or more, the second call is counted as a hit and leaves the entries and
    their order as the first call left them. *)
Theorem range_sum_repeated (w : World) (left right : Z) :
  let r1 := range_sum_with_cache left right w in
  let r2 := range_sum_with_cache left right r1.2 in
  r2.1 = r1.1 /\
  array r2.2 = array w /\
  (1 <= capacity (cache w) ->
   Z.of_nat (length (_od (cache w))) <= capacity (cache w) ->
   _od (cache r2.2) = _od (cache r1.2) /\
   hits (cache r2.2) = hits (cache r1.2) + 1 /\
   misses (cache r2.2) = misses (cache r1.2)).
Proof.
  intros r1 r2. subst r1 r2.
  destruct (od_getitem (left, right) (_od (cache w))) as [v|e] eqn:Hg.
  - destruct (decide (v = -1)) as [->|Hne].
    + rewrite (range_sum_with_cache_sentinel _ _ _ Hg). simpl.
      match goal with |- context [range_sum_with_cache left right ?w1] =>
        destruct (range_sum_after_store w1 left right
                    (od_remove (left, right) (_od (cache w))))
          as (Hres & Harr & Hcount); [apply od_remove_keys|done|] end.
      split; [done|]. split; [done|].
      intros Hcap Hlen. apply Hcount; simpl; [done|].
      etransitivity; [|exact Hlen]. apply Nat2Z.inj_le, od_remove_length.
    + rewrite (range_sum_with_cache_hit _ _ _ _ Hg Hne). simpl.
      erewrite range_sum_with_cache_hit;
        [|simpl; apply od_getitem_moved|done].
      simpl. by rewrite od_remove_moved.
  - apply od_getitem_Raise in Hg.
    rewrite (range_sum_with_cache_miss _ _ _ Hg). simpl.
    match goal with |- context [range_sum_with_cache left right ?w1] =>
      destruct (range_sum_after_store w1 left right (_od (cache w)))
        as (Hres & Harr & Hcount); [done|done|] end.
    split; [done|]. split; [done|].
    intros Hcap Hlen. by apply Hcount.
Qed.

Lemma range_sum_repeated_witness :
  let w := mkWorld [-1; 5; 7] (mkLRUCache 1 [((1, 2), 12)] 0 1) in
  let r1 := range_sum_with_cache 0 0 w in
  let r2 := range_sum_with_cache 0 0 r1.2 in
  r1.1 = Ok (-1) /\
  r2.1 = r1.1 /\
  _od (cache r2.2) = [((0, 0), -1)] /\
  hits (cache r2.2) = hits (cache r1.2) + 1.
Proof.
  intros w r1 r2.
  destruct (range_sum_repeated w 0 0) as (Hres & _ & Hcount).
  split; [reflexivity|]. split; [exact Hres|].
  destruct Hcount as (Hod & Hhits & _); [simpl; lia..|].
  split; [|exact Hhits]. fold r1 r2 in Hod. rewrite Hod. reflexivity.
Defined.

(** X3. After an update at an index inside the array, a range sum over
    bounds inside the array that contain the index never uses a cached
    value, whatever the cache held: it counts one miss and no hit and
    returns the sum over the updated array. *)
Theorem update_then_range_sum_misses
    (w : World) (index value left right : Z) :
  0 <= left <= index -> index <= right ->
  right < Z.of_nat (length (array w)) ->
  exists w',
    (update_with_cache index value ;; range_sum_with_cache left right) w =
      (Ok (sum (list_slice (<[Z.to_nat index := value]> (array w))
                  left (right + 1))), w') /\
    array w' = <[Z.to_nat index := value]> (array w) /\
    hits (cache w') = hits (cache w) /\
    misses (cache w') = misses (cache w) + 1.
Proof.
  intros Hl Hr Hn. unfold mbind, M_bind.
  rewrite (update_with_cache_Ok _ _ _ _
             (list_setitem_in_range index value (array w) ltac:(lia))).
  rewrite range_sum_with_cache_miss.
  - eexists. split; [reflexivity|]. by simpl.
  - simpl. unfold invalidate. intros Hin.
    apply list_elem_of_fmap in Hin as (e & He1 & He).
    apply list_elem_of_filter in He as [Hno _]. apply Hno.
    unfold overlaps. rewrite <- He1. simpl. lia.
Qed.

Lemma update_then_range_sum_misses_witness :
  let w := mkWorld [1; 2; 3; 4] (mkLRUCache 2 [((1, 3), 9); ((0, 0), 1)] 3 2) in
  0 <= 1 <= 2 /\ 2 <= 3 /\ 3 < Z.of_nat (length (array w)) /\
  exists w',
    (update_with_cache 2 10 ;; range_sum_with_cache 1 3) w = (Ok 16, w') /\
    misses (cache w') = 3.
Proof.
  intros w.
  assert (Hl : 0 <= 1 <= 2) by lia. assert (Hr : 2 <= 3) by lia.
  assert (Hn : 3 < Z.of_nat (length (array w))) by (simpl; lia).
  split; [exact Hl|]. split; [exact Hr|]. split; [exact Hn|].
  destruct (update_then_range_sum_misses w 2 10 1 3 Hl Hr Hn)
    as (w' & Hrun & _ & _ & Hm).
  exists w'. split; [exact Hrun|]. rewrite Hm. reflexivity.
Defined.

Lemma list_slice_singleton arr index value :
  0 <= index < Z.of_nat (length arr) ->
  list_slice (<[Z.to_nat index := value]> arr) index (index + 1) = [value].
Proof.
  intros Hi. rewrite list_slice_in_range by (rewrite ?length_insert; lia).
  rewrite drop_insert_ge by lia.
  replace (Z.to_nat index - Z.to_nat index)%nat with 0%nat by lia.
  replace (Z.to_nat (index - index + 1)) with 1%nat by lia.
  destruct (drop (Z.to_nat index) arr) as [|a rest] eqn:Hd; [|done].
  apply (f_equal length) in Hd. rewrite length_drop in Hd. simpl in Hd. lia.
Qed.

(** X4. Reading back what was written: after an update at an index inside
    the array, the range sum over that single index is the written value,
    through the cache (whatever it held) and without it. *)
Theorem update_then_read_back (w : World) (index value : Z) :
  0 <= index < Z.of_nat (length (array w)) ->
  (exists c',
     (update_with_cache index value ;; range_sum_with_cache index index) w =
       (Ok value, mkWorld (<[Z.to_nat index := value]> (array w)) c')) /\
  (update_no_cache index value ;; range_sum_no_cache index index) (array w) =
    (Ok value, <[Z.to_nat index := value]> (array w)).
Proof.
  intros Hi. split.
  - unfold mbind, M_bind.
    rewrite (update_with_cache_Ok _ _ _ _
               (list_setitem_in_range index value (array w) Hi)).
    rewrite range_sum_with_cache_miss.
    + simpl. rewrite list_slice_singleton by done.
      unfold sum. simpl. eauto.
    + simpl. unfold invalidate. intros Hin.
      apply list_elem_of_fmap in Hin as (e & He1 & He).
      apply list_elem_of_filter in He as [Hno _]. apply Hno.
      unfold overlaps. rewrite <- He1. simpl. lia.
  - unfold update_no_cache, range_sum_no_cache. run_M.
    rewrite (list_setitem_in_range index value (array w) Hi). simpl.
    rewrite list_slice_singleton by done. by unfold sum.
Qed.

Lemma update_then_read_back_witness :
  let w := mkWorld [1; 2; 3] (mkLRUCache 2 [((1, 1), 2)] 0 1) in
  0 <= 1 < Z.of_nat (length (array w)) /\
  (exists c',
     (update_with_cache 1 (-1) ;; range_sum_with_cache 1 1) w =
       (Ok (-1), mkWorld [1; -1; 3] c')) /\
  (update_no_cache 1 (-1) ;; range_sum_no_cache 1 1) (array w) =
    (Ok (-1), [1; -1; 3]).
Proof.
  intros w. assert (Hi : 0 <= 1 < Z.of_nat (length (array w))) by (simpl; lia).
  split; [exact Hi|]. exact (update_then_read_back w 1 (-1) Hi).
Defined.

(** ** The benchmark runs *)

Lemma counters_get_sum {K} `{EqDecision K} (key : K) (c : LRUCache K) :
  hits (get key c).2 + misses (get key c).2 = hits c + misses c + 1.
Proof.
  destruct (od_getitem key (_od c)) as [v|e] eqn:Hg.
  - rewrite (get_hit _ _ _ Hg). simpl. lia.
  - apply od_getitem_Raise in Hg. rewrite (get_miss _ _ Hg). simpl. lia.
Qed.

Lemma range_sum_with_cache_counters left right w :
  let c' := cache (range_sum_with_cache left right w).2 in
  hits c' + misses c' = hits (cache w) + misses (cache w) + 1.
Proof.
  pose proof (counters_get_sum (left, right) (cache w)) as Hget.
  destruct (range_sum_with_cache_state left right w) as [-> | [total ->]];
    simpl; [done|]. by rewrite put_run.
Qed.

Lemma update_with_cache_counters index value w :
  let c' := cache (update_with_cache index value w).2 in
  hits c' = hits (cache w) /\ misses c' = misses (cache w).
Proof.
  by destruct (update_with_cache_state index value w)
    as [-> | (arr' & _ & ->)].
Qed.

Lemma run_with_cache_loop_counters (queries : list Query) sink w s w' :
  run_with_cache_loop queries sink w = (Ok s, w') ->
  hits (cache w') + misses (cache w') =
    hits (cache w) + misses (cache w) +
    Z.of_nat (length (filter (fun q : Query => q.1.1 = "Range") queries)).
Proof.
  revert sink w. induction queries as [|[[typ a] b] queries IH];
    intros sink w Hrun.
  - injection Hrun as _ <-. simpl. lia.
  - cbn [run_with_cache_loop] in Hrun. rewrite filter_cons. simpl.
    destruct (String.eqb_spec typ "Range") as [->|Hne].
    + rewrite decide_True by done.
      unfold mbind, M_bind in Hrun.
      pose proof (range_sum_with_cache_counters a b w) as Hc.
      destruct (range_sum_with_cache a b w) as [[x|e] w1]; [|discriminate].
      apply IH in Hrun. simpl in *. lia.
    + rewrite decide_False by done.
      unfold mbind, M_bind in Hrun.
      pose proof (update_with_cache_counters a b w) as Hc.
      destruct (update_with_cache a b w) as [[x|e] w1]; [|discriminate].
      apply IH in Hrun. simpl in *. lia.
Qed.

(** X5. When a cached run completes, the hits and misses it reports add up
    to the number of "Range" queries in the list: every range query is
    counted exactly once, every other query not at all. *)
Theorem run_with_cache_counts_lookups
    (queries : list Query) (k_capacity : Z) (arr arr' : list Z)
    (stats : RunStats) :
  run_with_cache queries k_capacity arr = (Ok stats, arr') ->
  stat_hits stats + stat_misses stats =
    Z.of_nat (length (filter (fun q : Query => q.1.1 = "Range") queries)).
Proof.
  unfold run_with_cache, LRUCache_init.
  destruct (k_capacity <=? 0); [discriminate|].
  destruct (run_with_cache_loop queries 0 _) as [[s|e] w'] eqn:Hloop;
    [|discriminate].
  intros Hrun. injection Hrun as <- _. simpl.
  apply run_with_cache_loop_counters in Hloop. simpl in Hloop. lia.
Qed.

Lemma run_with_cache_counts_lookups_witness :
  let queries : list Query :=
    [("Range", 0, 1); ("Update", 0, 5); ("Range", 0, 1); ("Range", 0, 1);
     ("range", 1, 7); ("Range", 1, 2)]%string in
  run_with_cache queries 2 [1; 2; 3] =
    (Ok (mkRunStats 1 3), [5; 7; 3]) /\
  1 + 3 =
    Z.of_nat (length (filter (fun q : Query => q.1.1 = "Range"%string) queries)).
Proof.
  intros queries.
  assert (Hrun : run_with_cache queries 2 [1; 2; 3] =
                   (Ok (mkRunStats 1 3), [5; 7; 3])) by reflexivity.
  split; [exact Hrun|].
  exact (run_with_cache_counts_lookups queries 2 [1; 2; 3] [5; 7; 3]
           (mkRunStats 1 3) Hrun).
Defined.

Lemma range_sum_no_cache_run left right arr :
  range_sum_no_cache left right arr =
    (Ok (sum (list_slice arr left (right + 1))), arr).
Proof. reflexivity. Qed.

Lemma update_no_cache_run index value arr :
  update_no_cache index value arr =
    match list_setitem index value arr with
    | Ok arr' => (Ok tt, arr')
    | Raise e => (Raise e, arr)
    end.
Proof.
  unfold update_no_cache. run_M. by destruct (list_setitem index value arr).
Qed.

Lemma run_loops_same_array (queries : list Query) s1 s2 w :
  let rc := run_with_cache_loop queries s1 w in
  let rn := run_no_cache_loop queries s2 (array w) in
  array rc.2 = rn.2 /\ (forall e, rc.1 = Raise e <-> rn.1 = Raise e).
Proof.
  revert s1 s2 w. induction queries as [|[[typ a] b] queries IH];
    intros s1 s2 w; cbn [run_with_cache_loop run_no_cache_loop].
  - simpl. split; [done|]. intros e. split; discriminate.
  - destruct (String.eqb typ "Range").
    + unfold mbind, M_bind.
      destruct (range_sum_with_cache_total a b w) as (x & c' & ->).
      rewrite range_sum_no_cache_run.
      apply (IH _ _ (mkWorld (array w) c')).
    + unfold mbind, M_bind. rewrite update_no_cache_run.
      destruct (list_setitem a b (array w)) as [arr'|e] eqn:Hset.
      * rewrite (update_with_cache_Ok _ _ _ _ Hset).
        apply (IH _ _ (mkWorld arr' _)).
      * by rewrite (update_with_cache_Raise _ _ _ _ Hset).
Qed.

(** X6. A cached run with capacity 1 or more and an uncached run of the
    same queries on the same array leave the same array, whatever the
    queries are, and either both complete or both raise the same
    exception.  A cached run with capacity 0 or less raises ValueError
    with the array untouched. *)
Theorem run_with_cache_same_array
    (queries : list Query) (k_capacity : Z) (arr : list Z) :
  (1 <= k_capacity ->
   (run_with_cache queries k_capacity arr).2 = (run_no_cache queries arr).2 /\
   forall e, (run_with_cache queries k_capacity arr).1 = Raise e <->
             (run_no_cache queries arr).1 = Raise e) /\
  (k_capacity <= 0 ->
   run_with_cache queries k_capacity arr = (Raise ValueError, arr)).
Proof.
  unfold run_with_cache, run_no_cache, LRUCache_init. split.
  - intros Hk. destruct (Z.leb_spec k_capacity 0); [lia|].
    destruct (run_loops_same_array queries 0 0
                (mkWorld arr (mkLRUCache k_capacity [] 0 0))) as [Harr Herr].
    unfold mbind, M_bind. simpl in *.
    destruct (run_with_cache_loop queries 0 _) as [[s|e] w'],
             (run_no_cache_loop queries 0 arr) as [[s'|e'] arr'];
      simpl in *; (split; [done|]); intros e0.
    + split; discriminate.
    + specialize (Herr e'). destruct Herr as [_ Herr]. by specialize (Herr eq_refl).
    + specialize (Herr e). destruct Herr as [Herr _]. by specialize (Herr eq_refl).
    + specialize (Herr e0). split; intros Heq; injection Heq as ->.
      * destruct Herr as [Herr _]. specialize (Herr eq_refl). congruence.
      * destruct Herr as [_ Herr]. specialize (Herr eq_refl). congruence.
  - intros Hk. by destruct (Z.leb_spec k_capacity 0); [|lia].
Qed.

Lemma run_with_cache_same_array_witness :
  let queries : list Query :=
    [("Range", 0, 1); ("Update", -1, 5); ("Range", 2, 9); ("Update", 3, 0);
     ("Range", 0, 0)]%string in
  run_with_cache queries 1 [1; 2; 3] = (Raise IndexError, [1; 2; 5]) /\
  run_no_cache queries [1; 2; 3] = (Raise IndexError, [1; 2; 5]) /\
  (run_with_cache queries 1 [1; 2; 3]).2 = (run_no_cache queries [1; 2; 3]).2 /\
  run_with_cache queries 0 [1; 2; 3] = (Raise ValueError, [1; 2; 3]).
Proof.
  intros queries.
  destruct (run_with_cache_same_array queries 1 [1; 2; 3]) as [Hsame _].
  destruct (run_with_cache_same_array queries 0 [1; 2; 3]) as [_ Hzero].
  split; [reflexivity|]. split; [reflexivity|].
  split; [apply Hsame; lia|apply Hzero; lia].
Defined.

(** A range sum with bounds in the array, on a cache whose entries are
    fresh, returns the current sum. *)
Lemma range_sum_with_cache_fresh w left right :
  fresh_entries (array w) (_od (cache w)) ->
  (range_sum_with_cache left right w).1 =
    Ok (sum (list_slice (array w) left (right + 1))).
Proof.
  intros Hfr.
  destruct (od_getitem (left, right) (_od (cache w))) as [v|e] eqn:Hg.
  - destruct (decide (v = -1)) as [->|Hne].
    + by rewrite (range_sum_with_cache_sentinel _ _ _ Hg).
    + rewrite (range_sum_with_cache_hit _ _ _ _ Hg Hne). simpl.
      apply od_getitem_Ok in Hg. unfold fresh_entries in Hfr.
      rewrite Forall_forall in Hfr. destruct (Hfr _ Hg) as [_ Hsum].
      simpl in Hsum. by rewrite Hsum.
  - apply od_getitem_Raise in Hg.
    by rewrite (range_sum_with_cache_miss _ _ _ Hg).
Qed.

Lemma run_loops_same_sink arr0 C (queries : list Query) sink w :
  reachable arr0 C w ->
  Forall (query_in_range (Z.of_nat (length arr0))) queries ->
  exists s w',
    run_with_cache_loop queries sink w = (Ok s, w') /\
    run_no_cache_loop queries sink (array w) = (Ok s, array w').
Proof.
  revert sink w. induction queries as [|[[typ a] b] queries IH];
    intros sink w Hw Hq.
  - simpl. by exists sink, w.
  - apply Forall_cons in Hq as [Hq Hqs].
    destruct (reachable_fresh _ _ _ Hw) as [Hfr Hlen].
    unfold query_in_range in Hq. simpl in Hq.
    cbn [run_with_cache_loop run_no_cache_loop].
    destruct (String.eqb typ "Range"); unfold mbind, M_bind.
    + destruct Hq as [Hab Hb].
      assert (Hw1 : reachable arr0 C (range_sum_with_cache a b w).2).
      { apply reach_range_sum; [done|done|]. rewrite Hlen. done. }
      pose proof (range_sum_with_cache_fresh w a b Hfr) as Hres.
      destruct (range_sum_with_cache_total a b w) as (x & c' & Hrun).
      rewrite Hrun in Hres, Hw1. simpl in Hres, Hw1. injection Hres as ->.
      rewrite Hrun, range_sum_no_cache_run.
      apply (IH _ _ Hw1 Hqs).
    + assert (Hw1 : reachable arr0 C (update_with_cache a b w).2).
      { apply reach_update; [done|]. rewrite Hlen. done. }
      assert (Hi : 0 <= a < Z.of_nat (length (array w))) by (rewrite Hlen; done).
      pose proof (list_setitem_in_range a b (array w) Hi) as Hset.
      rewrite update_no_cache_run, Hset.
      rewrite (update_with_cache_Ok _ _ _ _ Hset) in Hw1 |- *.
      apply (IH _ _ Hw1 Hqs).
Qed.

(** X7. On queries whose arguments are inside the array (0 <= left <=
    right < N for "Range", 0 <= index < N otherwise), a cached run with
    capacity 1 or more and an uncached run both complete, and their
    [total_sink] values, the exclusive-or of all range sums, are equal:
    the cache changes no answer. *)
Theorem run_with_cache_same_answers
    (queries : list Query) (k_capacity : Z) (arr : list Z) :
  1 <= k_capacity ->
  Forall (query_in_range (Z.of_nat (length arr))) queries ->
  exists total_sink w',
    run_with_cache_loop queries 0
      (mkWorld arr (mkLRUCache k_capacity [] 0 0)) = (Ok total_sink, w') /\
    run_no_cache_loop queries 0 arr = (Ok total_sink, array w') /\
    run_with_cache queries k_capacity arr =
      (Ok (mkRunStats (hits (cache w')) (misses (cache w'))), array w') /\
    run_no_cache queries arr = (Ok (mkRunStats 0 0), array w').
Proof.
  intros Hk Hq.
  assert (Hinit : LRUCache_init (K := Key) k_capacity =
                    Ok (mkLRUCache k_capacity [] 0 0)).
  { unfold LRUCache_init. by destruct (Z.leb_spec k_capacity 0); [lia|]. }
  destruct (run_loops_same_sink arr k_capacity queries 0
              (mkWorld arr (mkLRUCache k_capacity [] 0 0)))
    as (s & w' & Hc & Hn); [by apply reach_init|done|].
  exists s, w'. split; [done|]. split; [done|].
  unfold run_with_cache, run_no_cache, mbind, M_bind.
  rewrite Hinit, Hc. simpl in Hn. by rewrite Hn.
Qed.

Lemma run_with_cache_same_answers_witness :
  let queries : list Query :=
    [("Range", 0, 2); ("Update", 1, 10); ("Range", 0, 2); ("Range", 1, 1);
     ("Range", 0, 2)]%string in
  1 <= 1 /\
  Forall (query_in_range (Z.of_nat (length [1; 2; 3]))) queries /\
  exists total_sink w',
    run_with_cache_loop queries 0
      (mkWorld [1; 2; 3] (mkLRUCache 1 [] 0 0)) = (Ok total_sink, w') /\
    run_no_cache_loop queries 0 [1; 2; 3] = (Ok total_sink, array w') /\
    total_sink = Z.lxor (Z.lxor (Z.lxor 6 14) 10) 14.
Proof.
  intros queries.
  assert (Hk : 1 <= 1) by lia.
  assert (Hq : Forall (query_in_range (Z.of_nat (length [1; 2; 3]))) queries).
  { repeat (constructor; [unfold query_in_range; simpl; lia|]). constructor. }
  split; [exact Hk|]. split; [exact Hq|].
  destruct (run_with_cache_same_answers queries 1 [1; 2; 3] Hk Hq)
    as (s & w' & Hc & Hn & _).
  exists s, w'. split; [exact Hc|]. split; [exact Hn|].
  assert (Hv : run_no_cache_loop queries 0 [1; 2; 3] =
                 (Ok (Z.lxor (Z.lxor (Z.lxor 6 14) 10) 14), [1; 10; 3]))
    by reflexivity.
  rewrite Hv in Hn. congruence.
Defined.

(** ** Slice bounds *)

Lemma list_slice_to_end arr left right :
  0 <= left -> Z.of_nat (length arr) - 1 <= right ->
  list_slice arr left (right + 1) = drop (Z.to_nat left) arr.
Proof.
  intros Hl Hr. unfold list_slice, slice_index.
  destruct (Z.ltb_spec left 0), (Z.ltb_spec (right + 1) 0); try lia.
  rewrite take_ge by (rewrite length_drop; lia).
  destruct (decide (left <= Z.of_nat (length arr))) as [Hle|Hgt].
  - by rewrite Z.min_l.
  - by rewrite !drop_ge by lia.
Qed.

Lemma list_slice_reversed arr left right :
  0 <= left -> -1 <= right < left ->
  list_slice arr left (right + 1) = [].
Proof.
  intros Hl Hr. unfold list_slice, slice_index.
  destruct (Z.ltb_spec left 0), (Z.ltb_spec (right + 1) 0); try lia.
  replace (Z.to_nat _) with 0%nat by lia. apply take_0.
Qed.

Lemma list_slice_stop_zero arr left :
  list_slice arr left (-1 + 1) = [].
Proof.
  unfold list_slice, slice_index.
  destruct (Z.ltb_spec (-1 + 1) 0); [lia|].
  replace (Z.to_nat _) with 0%nat; [apply take_0|].
  destruct (Z.ltb_spec left 0); lia.
Qed.

Lemma list_slice_negative arr left right :
  - Z.of_nat (length arr) <= left -> left <= right -> right < -1 ->
  list_slice arr left (right + 1) =
    list_slice arr (left + Z.of_nat (length arr))
      (right + Z.of_nat (length arr) + 1).
Proof.
  intros Hl Hlr Hr. unfold list_slice, slice_index.
  destruct (Z.ltb_spec left 0), (Z.ltb_spec (right + 1) 0),
    (Z.ltb_spec (left + Z.of_nat (length arr)) 0),
    (Z.ltb_spec (right + Z.of_nat (length arr) + 1) 0); try lia.
  do 2 f_equal; lia.
Qed.

(** X8. The uncached range sum never raises and never writes the array,
    and its bounds follow Python's slices: a right bound at or past the
    last index sums to the end; a right bound below the left one (but not
    below -1) gives 0; a right bound of -1 gives 0 whatever the left bound;
    bounds that are both negative (right < -1) count from the end. *)
Theorem range_sum_no_cache_bounds (arr : list Z) (left right : Z) :
  (exists x, range_sum_no_cache left right arr = (Ok x, arr)) /\
  (0 <= left -> Z.of_nat (length arr) - 1 <= right ->
   range_sum_no_cache left right arr =
     (Ok (sum (drop (Z.to_nat left) arr)), arr)) /\
  (0 <= left -> -1 <= right < left ->
   range_sum_no_cache left right arr = (Ok 0, arr)) /\
  (right = -1 -> range_sum_no_cache left right arr = (Ok 0, arr)) /\
  (- Z.of_nat (length arr) <= left -> left <= right -> right < -1 ->
   range_sum_no_cache left right arr =
     range_sum_no_cache (left + Z.of_nat (length arr))
       (right + Z.of_nat (length arr)) arr).
Proof.
  rewrite !range_sum_no_cache_run. split; [eauto|]. split; [|split; [|split]].
  - intros Hl Hr. by rewrite list_slice_to_end.
  - intros Hl Hr. by rewrite list_slice_reversed.
  - intros ->. by rewrite list_slice_stop_zero.
  - intros Hl Hlr Hr. by rewrite list_slice_negative.
Qed.

Lemma range_sum_no_cache_bounds_witness :
  let arr := [1; 2; 3; 4; 5] in
  range_sum_no_cache 3 99 arr = (Ok 9, arr) /\
  range_sum_no_cache 3 1 arr = (Ok 0, arr) /\
  range_sum_no_cache (-3) (-1) arr = (Ok 0, arr) /\
  range_sum_no_cache (-3) (-2) arr = (Ok 7, arr) /\
  range_sum_no_cache (-3) (-2) arr = range_sum_no_cache 2 3 arr.
Proof.
  intros arr.
  destruct (range_sum_no_cache_bounds arr 3 99) as (_ & Hend & _).
  destruct (range_sum_no_cache_bounds arr 3 1) as (_ & _ & Hrev & _).
  destruct (range_sum_no_cache_bounds arr (-3) (-1)) as (_ & _ & _ & Hm1 & _).
  destruct (range_sum_no_cache_bounds arr (-3) (-2)) as (_ & _ & _ & _ & Hneg).
  split; [rewrite Hend by (simpl; lia); reflexivity|].
  split; [apply Hrev; lia|]. split; [apply Hm1; lia|].
  split; [reflexivity|]. apply Hneg; simpl; lia.
Defined.


(** * The sliding-window rate limiter (task_2.py) *)

(** ** The methods as functions on the limiter *)

Lemma drop_expired_suffix boundary dq :
  drop_expired boundary dq `suffix_of` dq.
Proof.
  induction dq as [|t dq IH]; simpl; [done|].
  destruct (PrimFloat.leb t boundary); [by apply suffix_cons_r|done].
Qed.

(** The loop removes the longest run of leading timestamps that are at or
    below the boundary, and nothing behind it. *)
Lemma drop_expired_split boundary dq :
  exists expired,
    dq = expired ++ drop_expired boundary dq /\
    Forall (fun t => PrimFloat.leb t boundary = true) expired /\
    match drop_expired boundary dq with
    | [] => True
    | t :: _ => PrimFloat.leb t boundary = false
    end.
Proof.
  induction dq as [|t dq (expired & Heq & Hall & Hhd)]; simpl.
  - exists []. by repeat split.
  - destruct (PrimFloat.leb t boundary) eqn:Ht.
    + exists (t :: expired). split; [simpl; by f_equal|].
      split; [by constructor|done].
    + exists []. by repeat split.
Qed.

Lemma drop_expired_fixed boundary dq :
  match dq with
  | [] => True
  | t :: _ => PrimFloat.leb t boundary = false
  end ->
  drop_expired boundary dq = dq.
Proof. destruct dq as [|t dq]; simpl; [done|]. by intros ->. Qed.

Lemma clean_entry_idemp ws now entry :
  clean_entry ws now (clean_entry ws now entry) = clean_entry ws now entry.
Proof.
  destruct entry as [[|t dq]|]; [done| |done].
  unfold clean_entry at 2 3.
  destruct (drop_expired_split (PrimFloat.sub now ws) (t :: dq))
    as (_ & _ & _ & Hhd).
  destruct (drop_expired (PrimFloat.sub now ws) (t :: dq)) as [|t' dq'] eqn:Hd;
    [done|].
  unfold clean_entry. rewrite (drop_expired_fixed _ (t' :: dq')); done.
Qed.

Lemma float_of_int_Raise z e : float_of_int z = Raise e -> e = OverflowError.
Proof.
  unfold float_of_int.
  destruct (binary_normalize _ _ _ _ _); intros Hr; try discriminate.
  by injection Hr.
Qed.

Lemma partial_alter_fixed {A} (f : option A -> option A) (u : string)
    (h : gmap string A) :
  f (h !! u) = h !! u -> partial_alter f u h = h.
Proof.
  intros Hf. apply map_eq. intros u'. rewrite lookup_partial_alter.
  case_decide; [by subst|done].
Qed.

Lemma store_entry_same user_id entry s :
  history s !! user_id = entry -> store_entry user_id entry s = s.
Proof.
  intros Hu. destruct s as [ws mr h]. unfold store_entry. simpl in *.
  f_equal. by apply partial_alter_fixed.
Qed.

Lemma store_entry_lookup user_id entry s :
  history (store_entry user_id entry s) !! user_id = entry.
Proof. simpl. rewrite lookup_partial_alter. by rewrite decide_True. Qed.

Lemma store_entry_lookup_ne user_id u entry s :
  u <> user_id ->
  history (store_entry user_id entry s) !! u = history s !! u.
Proof.
  intros Hne. simpl. rewrite lookup_partial_alter. by rewrite decide_False.
Qed.

Lemma insert_partial_alter {A} (f : option A -> option A) (u : string) (x : A)
    (h : gmap string A) :
  <[u := x]> (partial_alter f u h) = partial_alter (fun _ => Some x) u h.
Proof.
  apply map_eq. intros u'. rewrite lookup_insert, !lookup_partial_alter.
  by case_decide.
Qed.

Lemma delete_insert_partial_alter {A} (u : string) (x : A)
    (h : gmap string A) :
  delete u (<[u := x]> h) = partial_alter (fun _ => None) u h.
Proof.
  apply map_eq. intros u'.
  rewrite lookup_delete, lookup_partial_alter.
  case_decide; [done|]. by rewrite lookup_insert_ne.
Qed.

Lemma _cleanup_window_run user_id now s :
  _cleanup_window user_id now s =
    match cleaned_entry s user_id now with
    | Ok entry => (Ok tt, store_entry user_id entry s)
    | Raise e => (Raise e, s)
    end.
Proof.
  unfold _cleanup_window, cleaned_entry. run_M.
  destruct (history s !! user_id) as [[|t dq]|] eqn:Hu.
  - by rewrite store_entry_same.
  - destruct (float_of_int (window_size s)) as [ws|e]; [|done].
    unfold set_history, store_entry, clean_entry. simpl.
    destruct (if PrimFloat.leb t (PrimFloat.sub now ws)
              then drop_expired (PrimFloat.sub now ws) dq
              else t :: dq) as [|t' dq']; simpl; do 2 f_equal.
    apply delete_insert_partial_alter.
  - by rewrite store_entry_same.
Qed.

Lemma can_send_message_run user_id now s :
  can_send_message user_id now s =
    match cleaned_entry s user_id now with
    | Ok entry =>
        (Ok match entry with
            | None => true
            | Some dq => bool_decide (Z.of_nat (length dq) < max_requests s)
            end,
         store_entry user_id entry s)
    | Raise e => (Raise e, s)
    end.
Proof.
  unfold can_send_message, mbind, M_bind. rewrite _cleanup_window_run.
  destruct (cleaned_entry s user_id now) as [entry|e]; [|done].
  unfold get_state. rewrite store_entry_lookup. by destruct entry.
Qed.

Lemma record_message_run user_id now s :
  record_message user_id now s =
    match cleaned_entry s user_id now with
    | Ok entry =>
        let dq := default [] entry in
        if bool_decide (Z.of_nat (length dq) < max_requests s) then
          (Ok true, store_entry user_id (Some (dq ++ [now])) s)
        else (Ok false, store_entry user_id (Some dq) s)
    | Raise e => (Raise e, s)
    end.
Proof.
  unfold record_message, mbind, M_bind. rewrite _cleanup_window_run.
  destruct (cleaned_entry s user_id now) as [entry|e]; [|done].
  unfold get_state. rewrite store_entry_lookup.
  destruct entry as [dq|]; cbn [default].
  - unfold mret, M_ret, set_history. cbn [max_requests window_size store_entry].
    destruct (bool_decide _); [|done].
    unfold store_entry. cbn [history]. do 2 f_equal.
    apply insert_partial_alter.
  - unfold mret, M_ret, set_history. cbn [max_requests window_size store_entry].
    destruct (bool_decide _); unfold store_entry; cbn [history length app];
      do 2 f_equal.
    + etransitivity; [apply insert_insert_eq|apply insert_partial_alter].
    + apply insert_partial_alter.
Qed.

Lemma time_until_next_allowed_run user_id now s :
  time_until_next_allowed user_id now s =
    match cleaned_entry s user_id now with
    | Ok entry =>
        (match entry with
         | None => Ok 0%float
         | Some dq =>
             if bool_decide (Z.of_nat (length dq) < max_requests s)
             then Ok 0%float
             else match dq with
                  | [] => Raise IndexError
                  | t :: _ =>
                      match float_of_int (window_size s) with
                      | Ok ws =>
                          Ok (max_0 (PrimFloat.sub ws (PrimFloat.sub now t)))
                      | Raise e => Raise e
                      end
                  end
         end,
         store_entry user_id entry s)
    | Raise e => (Raise e, s)
    end.
Proof.
  unfold time_until_next_allowed, mbind, M_bind. rewrite _cleanup_window_run.
  destruct (cleaned_entry s user_id now) as [entry|e]; [|done].
  unfold get_state. rewrite store_entry_lookup.
  destruct entry as [dq|]; [|done].
  cbn [max_requests window_size store_entry].
  destruct (bool_decide _); [done|]. destruct dq as [|t dq]; [done|].
  unfold of_res, mret, M_ret.
  by destruct (float_of_int (window_size s)).
Qed.

Lemma cleaned_entry_Some s user_id now dq' :
  cleaned_entry s user_id now = Ok (Some dq') ->
  exists dq,
    history s !! user_id = Some dq /\ dq' `suffix_of` dq /\
    (dq' = [] -> dq = []).
Proof.
  unfold cleaned_entry.
  destruct (history s !! user_id) as [[|t dq]|]; [| |discriminate].
  - intros [= <-]. by exists [].
  - destruct (float_of_int (window_size s)) as [ws|e]; [|discriminate].
    unfold clean_entry.
    pose proof (drop_expired_suffix (PrimFloat.sub now ws) (t :: dq)) as Hsuf.
    destruct (drop_expired (PrimFloat.sub now ws) (t :: dq)) as [|t' dq0];
      [discriminate|].
    intros [= <-]. exists (t :: dq). by repeat split.
Qed.

Lemma cleaned_entry_Raise s user_id now e :
  cleaned_entry s user_id now = Raise e ->
  e = OverflowError /\
  float_of_int (window_size s) = Raise OverflowError /\
  exists t dq, history s !! user_id = Some (t :: dq).
Proof.
  unfold cleaned_entry.
  destruct (history s !! user_id) as [[|t dq]|]; [discriminate| |discriminate].
  destruct (float_of_int (window_size s)) as [ws|e'] eqn:Hf; [discriminate|].
  intros [= <-]. pose proof (float_of_int_Raise _ _ Hf) as ->. eauto.
Qed.

Lemma cleaned_entry_fits s user_id now ws :
  float_of_int (window_size s) = Ok ws ->
  cleaned_entry s user_id now =
    Ok (clean_entry ws now (history s !! user_id)).
Proof.
  intros Hf. unfold cleaned_entry. rewrite Hf.
  by destruct (history s !! user_id) as [[|t dq]|].
Qed.

Lemma cleaned_entry_nonempty s user_id now t dq' :
  cleaned_entry s user_id now = Ok (Some (t :: dq')) ->
  exists ws, float_of_int (window_size s) = Ok ws.
Proof.
  unfold cleaned_entry.
  destruct (history s !! user_id) as [[|t0 dq]|]; [discriminate| |discriminate].
  destruct (float_of_int (window_size s)) as [ws|e]; [eauto|discriminate].
Qed.

(** What a call leaves in the dictionary: other users' entries as they
    were; the limiter as it was when the cleanup raised; otherwise the
    user's own entry cleaned, or cleaned and extended by the clock reading
    while below [max_requests], or a new empty deque when nothing may be
    stored. *)
Lemma limiter_after_call_spec (c : limiter_call) (s : SlidingWindowRateLimiter) :
  let s' := limiter_after_call c s in
  window_size s' = window_size s /\
  max_requests s' = max_requests s /\
  (forall u, u <> limiter_user c -> history s' !! u = history s !! u) /\
  ((exists e, cleaned_entry s (limiter_user c) (limiter_now c) = Raise e /\
              s' = s) \/
   (exists entry,
      cleaned_entry s (limiter_user c) (limiter_now c) = Ok entry /\
      (history s' !! limiter_user c = entry \/
       (Z.of_nat (length (default [] entry)) < max_requests s /\
        history s' !! limiter_user c =
          Some (default [] entry ++ [limiter_now c])) \/
       (entry = None /\ max_requests s <= 0 /\
        history s' !! limiter_user c = Some [])))).
Proof.
  assert (Hstore : forall u entry,
    window_size (store_entry u entry s) = window_size s /\
    max_requests (store_entry u entry s) = max_requests s /\
    forall u', u' <> u ->
      history (store_entry u entry s) !! u' = history s !! u').
  { intros u entry. split; [done|]. split; [done|].
    intros u' Hne. by apply store_entry_lookup_ne. }
  destruct c as [u now|u now|u now]; cbn [limiter_after_call limiter_user
    limiter_now].
  - rewrite can_send_message_run.
    destruct (cleaned_entry s u now) as [entry|e] eqn:He; cbn [snd].
    + destruct (Hstore u entry) as (Hw & Hm & Hother).
      split; [done|]. split; [done|]. split; [done|]. right.
      exists entry. split; [done|]. left. apply store_entry_lookup.
    + split; [done|]. split; [done|]. split; [done|]. left. eauto.
  - rewrite record_message_run.
    destruct (cleaned_entry s u now) as [entry|e] eqn:He; cbn [snd].
    + cbn zeta. case_bool_decide as Hlt; cbn [snd].
      * destruct (Hstore u (Some (default [] entry ++ [now])))
          as (Hw & Hm & Hother).
        split; [done|]. split; [done|]. split; [done|]. right.
        exists entry. split; [done|]. right. left. split; [done|].
        apply store_entry_lookup.
      * destruct (Hstore u (Some (default [] entry))) as (Hw & Hm & Hother).
        split; [done|]. split; [done|]. split; [done|]. right.
        exists entry. split; [done|]. rewrite store_entry_lookup.
        destruct entry as [dq|]; [by left|].
        right. right. split; [done|]. split; [simpl in Hlt; lia|done].
    + split; [done|]. split; [done|]. split; [done|]. left. eauto.
  - rewrite time_until_next_allowed_run.
    destruct (cleaned_entry s u now) as [entry|e] eqn:He; cbn [snd].
    + destruct (Hstore u entry) as (Hw & Hm & Hother).
      split; [done|]. split; [done|]. split; [done|]. right.
      exists entry. split; [done|]. left. apply store_entry_lookup.
    + split; [done|]. split; [done|]. split; [done|]. left. eauto.
Qed.

Lemma limiter_after_ind (P : SlidingWindowRateLimiter -> Prop)
    (calls : list limiter_call) (s0 : SlidingWindowRateLimiter) :
  P s0 ->
  (forall c s, c ∈ calls -> P s -> P (limiter_after_call c s)) ->
  P (limiter_after calls s0).
Proof.
  unfold limiter_after. revert s0.
  induction calls as [|c calls IH]; intros s0 H0 Hstep; [done|].
  simpl. apply IH.
  - apply Hstep; [left|done].
  - intros c' s Hin. apply Hstep. by right.
Qed.

Lemma limiter_bounded_inv (ws mr : Z) (calls : list limiter_call) :
  let s := limiter_after calls (limiter_init ws mr) in
  window_size s = ws /\
  max_requests s = mr /\
  forall u dq, history s !! u = Some dq ->
    Z.of_nat (length dq) <= Z.max 0 mr.
Proof.
  apply limiter_after_ind.
  - simpl. repeat split. intros u dq Hu. by rewrite lookup_empty in Hu.
  - intros c s _ (Hw0 & Hm0 & Hb0).
    destruct (limiter_after_call_spec c s) as (Hw & Hm & Hother & Hown).
    split; [congruence|]. split; [congruence|]. intros u dq Hu.
    destruct (decide (u = limiter_user c)) as [->|Hne];
      [|rewrite Hother in Hu by done; by eapply Hb0].
    destruct Hown as [(e & _ & Hsame)|(entry & He & Hown)].
    { rewrite Hsame in Hu. by eapply Hb0. }
    destruct Hown as [Hown|[[Hlt Hown]|(_ & _ & Hown)]];
      rewrite Hown in Hu.
    + rewrite Hu in He. apply cleaned_entry_Some in He as (dq0 & Hdq0 & Hsuf & _).
      apply suffix_length in Hsuf. apply Hb0 in Hdq0. lia.
    + injection Hu as <-. rewrite length_app. simpl. lia.
    + injection Hu as <-. simpl. lia.
Qed.

(** ** What the limiter keeps *)

(** X9. A limiter constructed with any window and any [max_requests], after
    any sequence of calls at any clock readings, keeps its two settings
    and holds, for every user, at most [max_requests] timestamps (none
    when [max_requests] is 0 or less). *)
Theorem limiter_history_bounded
    (ws : Z) (mr : Z) (calls : list limiter_call) :
  let s := limiter_after calls (limiter_init ws mr) in
  window_size s = ws /\
  max_requests s = mr /\
  forall u dq, history s !! u = Some dq ->
    Z.of_nat (length dq) <= Z.max 0 mr.
Proof. apply limiter_bounded_inv. Qed.

Lemma limiter_history_bounded_witness :
  let calls :=
    [RecordMessage "1" 100; RecordMessage "1" 105; RecordMessage "1" 106;
     CanSend "2" 107; RecordMessage "1" 111.5; TimeUntilNext "1" 112]%float in
  let s := limiter_after calls (limiter_init 10 2) in
  history s !! "1" = Some [105; 111.5]%float /\
  history s !! "2" = None /\
  Z.of_nat (length [105; 111.5]%float) <= Z.max 0 2.
Proof.
  intros calls s.
  assert (Hu : history s !! "1" = Some [105; 111.5]%float)
    by (vm_compute; reflexivity).
  split; [exact Hu|]. split; [vm_compute; reflexivity|].
  exact (proj2 (proj2 (limiter_history_bounded 10 2 calls)) "1" _ Hu).
Defined.

Lemma limiter_nonempty_inv (ws mr : Z) (calls : list limiter_call) :
  1 <= mr ->
  let s := limiter_after calls (limiter_init ws mr) in
  window_size s = ws /\
  max_requests s = mr /\
  forall u dq, history s !! u = Some dq -> dq <> [].
Proof.
  intros Hmr. apply limiter_after_ind.
  - simpl. repeat split. intros u dq Hu. by rewrite lookup_empty in Hu.
  - intros c s _ (Hw0 & Hm0 & Hne0).
    destruct (limiter_after_call_spec c s) as (Hw & Hm & Hother & Hown).
    split; [congruence|]. split; [congruence|]. intros u dq Hu.
    destruct (decide (u = limiter_user c)) as [->|Hne];
      [|rewrite Hother in Hu by done; by eapply Hne0].
    destruct Hown as [(e & _ & Hsame)|(entry & He & Hown)].
    { rewrite Hsame in Hu. by eapply Hne0. }
    destruct Hown as [Hown|[[_ Hown]|(_ & Hle & _)]]; [| |lia];
      rewrite Hown in Hu.
    + rewrite Hu in He. apply cleaned_entry_Some in He as (dq0 & Hdq0 & _ & Hnil).
      intros ->. apply (Hne0 _ _ Hdq0). by apply Hnil.
    + injection Hu as <-. by destruct (default [] entry).
Qed.

(** X10. With [max_requests] of 1 or more, a limiter never holds an empty
    deque, whatever calls were made since its construction, so [dq[0]]
    never raises IndexError.  When [window_size] has a float, none of
    [time_until_next_allowed], [can_send_message] and [record_message]
    raises.  The only exception any of them raises is the OverflowError of
    converting a [window_size] that has no float, and only for a user who
    has a timestamp stored. *)
Theorem limiter_raises_only_overflow
    (ws : Z) (mr : Z) (calls : list limiter_call)
    (user_id : string) (now : float) :
  1 <= mr ->
  let s := limiter_after calls (limiter_init ws mr) in
  (forall u dq, history s !! u = Some dq -> dq <> []) /\
  (forall wsf, float_of_int ws = Ok wsf ->
     (exists wait, (time_until_next_allowed user_id now s).1 = Ok wait) /\
     (exists b, (can_send_message user_id now s).1 = Ok b) /\
     (exists b, (record_message user_id now s).1 = Ok b)) /\
  (forall e,
     (time_until_next_allowed user_id now s).1 = Raise e \/
     (can_send_message user_id now s).1 = Raise e \/
     (record_message user_id now s).1 = Raise e ->
     e = OverflowError /\
     float_of_int ws = Raise OverflowError /\
     exists t dq, history s !! user_id = Some (t :: dq)).
Proof.
  intros Hmr s.
  destruct (limiter_nonempty_inv ws mr calls Hmr) as (Hw & Hm & Hne).
  fold s in Hw, Hm, Hne.
  assert (Hraise : forall e,
    (time_until_next_allowed user_id now s).1 = Raise e \/
    (can_send_message user_id now s).1 = Raise e \/
    (record_message user_id now s).1 = Raise e ->
    cleaned_entry s user_id now = Raise e).
  { intros e.
    rewrite time_until_next_allowed_run, can_send_message_run,
      record_message_run.
    destruct (cleaned_entry s user_id now) as [entry|e'] eqn:He; cbn [fst].
    - intros [Ht|[Hc|Hr]]; [|discriminate|].
      + exfalso. destruct entry as [dq|]; [|discriminate].
        destruct (bool_decide _); [discriminate|].
        destruct dq as [|t dq].
        * apply cleaned_entry_Some in He as (dq0 & Hdq0 & _ & Hnil).
          apply (Hne _ _ Hdq0). by apply Hnil.
        * destruct (cleaned_entry_nonempty _ _ _ _ _ He) as [wsf Hf].
          rewrite Hf in Ht. discriminate.
      + exfalso. cbn zeta in Hr. destruct (bool_decide _); discriminate.
    - intros [Ht|[Hc|Hr]]; congruence. }
  split; [done|]. split.
  - intros wsf Hf.
    assert (Hok : forall e,
      ~ ((time_until_next_allowed user_id now s).1 = Raise e \/
         (can_send_message user_id now s).1 = Raise e \/
         (record_message user_id now s).1 = Raise e)).
    { intros e Hr. apply Hraise in Hr.
      apply cleaned_entry_Raise in Hr as (_ & Hf' & _). congruence. }
    split; [|split].
    + destruct (time_until_next_allowed user_id now s).1 as [wait|e] eqn:Hr;
        [eauto|]. exfalso. apply (Hok e). auto.
    + destruct (can_send_message user_id now s).1 as [b|e] eqn:Hr;
        [eauto|]. exfalso. apply (Hok e). auto.
    + destruct (record_message user_id now s).1 as [b|e] eqn:Hr;
        [eauto|]. exfalso. apply (Hok e). auto.
  - intros e Hr. apply Hraise in Hr.
    apply cleaned_entry_Raise in Hr. by rewrite Hw in Hr.
Qed.

Lemma limiter_raises_only_overflow_witness :
  let calls := [RecordMessage "1" 100; RecordMessage "1" 105]%float in
  let s := limiter_after calls (limiter_init 10 1) in
  let big := limiter_after [RecordMessage "1" 100%float]
               (limiter_init (10 ^ 400) 1) in
  1 <= 1 /\
  history s !! "1" = Some [100%float] /\
  (time_until_next_allowed "1" 105.5%float s).1 = Ok 4.5%float /\
  (exists wait, (time_until_next_allowed "1" 105.5%float s).1 = Ok wait) /\
  (can_send_message "1" 105%float big).1 = Raise OverflowError /\
  float_of_int (10 ^ 400) = Raise OverflowError.
Proof.
  intros calls s big. assert (Hmr : 1 <= 1) by lia.
  split; [exact Hmr|]. split; [vm_compute; reflexivity|].
  split; [vm_compute; reflexivity|].
  destruct (limiter_raises_only_overflow 10 1 calls "1" 105.5%float Hmr)
    as (_ & Hfits & _).
  destruct (limiter_raises_only_overflow (10 ^ 400) 1
              [RecordMessage "1" 100%float] "1" 105%float Hmr)
    as (_ & _ & Honly).
  split; [exact (proj1 (Hfits 10%float ltac:(vm_compute; reflexivity)))|].
  assert (Hr : (can_send_message "1" 105%float big).1 = Raise OverflowError)
    by (vm_compute; reflexivity).
  split; [exact Hr|].
  exact (proj1 (proj2 (Honly OverflowError (or_intror (or_introl Hr))))).
Defined.

(** X11. With [max_requests] of 0 or less [record_message] never answers
    True: it answers False, always so on a limiter as the constructor and
    any calls left it and whenever the user's deque is empty or absent;
    the one other outcome is the OverflowError of the cleanup, for a
    [window_size] without a float and a non-empty deque, the limiter left
    as it was.  For a user without an entry [can_send_message] still
    answers True; the refused [record_message] leaves an empty deque
    behind, after which [time_until_next_allowed] raises IndexError,
    leaving the limiter as it is, and [can_send_message] answers False. *)
Theorem limiter_without_quota
    (s : SlidingWindowRateLimiter) (user_id : string) (now now' : float) :
  max_requests s <= 0 ->
  ((record_message user_id now s).1 = Ok false \/
   (record_message user_id now s = (Raise OverflowError, s) /\
    float_of_int (window_size s) = Raise OverflowError /\
    exists t dq, history s !! user_id = Some (t :: dq))) /\
  ((forall dq, history s !! user_id = Some dq -> dq = []) ->
   (record_message user_id now s).1 = Ok false) /\
  (forall ws calls,
     s = limiter_after calls (limiter_init ws (max_requests s)) ->
     (record_message user_id now s).1 = Ok false) /\
  (history s !! user_id = None ->
   let s1 := (record_message user_id now s).2 in
   (can_send_message user_id now s).1 = Ok true /\
   history s1 !! user_id = Some [] /\
   time_until_next_allowed user_id now' s1 = (Raise IndexError, s1) /\
   (can_send_message user_id now' s1).1 = Ok false).
Proof.
  intros Hmr.
  assert (Hcases :
    (record_message user_id now s).1 = Ok false \/
    (record_message user_id now s = (Raise OverflowError, s) /\
     float_of_int (window_size s) = Raise OverflowError /\
     exists t dq, history s !! user_id = Some (t :: dq))).
  { rewrite record_message_run.
    destruct (cleaned_entry s user_id now) as [entry|e] eqn:He.
    - left. cbn zeta. by rewrite bool_decide_false by lia.
    - right. apply cleaned_entry_Raise in He as (-> & Hf & Hdq). done. }
  assert (Hempty : (forall dq, history s !! user_id = Some dq -> dq = []) ->
                   (record_message user_id now s).1 = Ok false).
  { intros Hall. destruct Hcases as [Hf|(_ & _ & t & dq & Hu)]; [done|].
    by apply Hall in Hu. }
  split; [done|]. split; [done|]. split.
  { intros ws calls Hs. apply Hempty. intros dq Hu.
    destruct (limiter_bounded_inv ws (max_requests s) calls) as (_ & _ & Hb).
    rewrite <- Hs in Hb. apply Hb in Hu.
    destruct dq as [|t dq]; [done|]. cbn [length] in Hu. lia. }
  intros Hu. cbn zeta.
  assert (He : cleaned_entry s user_id now = Ok None)
    by (unfold cleaned_entry; by rewrite Hu).
  rewrite record_message_run, can_send_message_run, He. cbn zeta.
  rewrite bool_decide_false by (simpl; lia). cbn [fst snd default].
  split; [done|]. rewrite store_entry_lookup. split; [done|].
  assert (He1 : cleaned_entry (store_entry user_id (Some []) s) user_id now'
                = Ok (Some [])).
  { unfold cleaned_entry. by rewrite store_entry_lookup. }
  rewrite time_until_next_allowed_run, can_send_message_run, He1.
  cbn [fst max_requests store_entry].
  rewrite bool_decide_false by (simpl; lia). split; [|done].
  f_equal. apply store_entry_same. apply store_entry_lookup.
Qed.

Lemma limiter_without_quota_witness :
  let s := limiter_init 10 0 in
  let s1 := (record_message "1" 100%float s).2 in
  max_requests s <= 0 /\
  (can_send_message "1" 100%float s).1 = Ok true /\
  (record_message "1" 100%float s).1 = Ok false /\
  time_until_next_allowed "1" 100.5%float s1 = (Raise IndexError, s1).
Proof.
  intros s s1. assert (Hmr : max_requests s <= 0) by (simpl; lia).
  destruct (limiter_without_quota s "1" 100%float 100.5%float Hmr)
    as (_ & _ & Hrec & Hnew).
  destruct Hnew as (Hcan & _ & Hraise & _); [reflexivity|].
  split; [exact Hmr|]. split; [exact Hcan|].
  split; [exact (Hrec 10 [] eq_refl)|exact Hraise].
Defined.

(** X12. With [max_requests] of 1 or more, [can_send_message] answers what
    [record_message] would answer on the same limiter at the same clock
    reading; when that answer is False both leave the same limiter. *)
Theorem can_send_agrees_with_record
    (s : SlidingWindowRateLimiter) (user_id : string) (now : float) :
  1 <= max_requests s ->
  (can_send_message user_id now s).1 = (record_message user_id now s).1 /\
  ((record_message user_id now s).1 = Ok false ->
   (record_message user_id now s).2 = (can_send_message user_id now s).2).
Proof.
  intros Hmr. rewrite record_message_run, can_send_message_run.
  destruct (cleaned_entry s user_id now) as [[dq|]|e]; cbn zeta;
    unfold default, from_option, id; [| |by split].
  - destruct (bool_decide (Z.of_nat (length dq) < max_requests s));
      cbn [fst snd]; (split; [done|]); [discriminate|done].
  - rewrite bool_decide_true by (simpl; lia). cbn [fst snd].
    split; [done|]. discriminate.
Qed.

Lemma can_send_agrees_with_record_witness :
  let s := mkLimiter 10 1 (<["1"%string := [100%float]]> ∅) in
  1 <= max_requests s /\
  (can_send_message "1" 105%float s).1 = Ok false /\
  (record_message "1" 105%float s).1 = Ok false /\
  (can_send_message "1" 110%float s).1 = (record_message "1" 110%float s).1.
Proof.
  intros s. assert (Hmr : 1 <= max_requests s) by (simpl; lia).
  split; [exact Hmr|]. split; [vm_compute; reflexivity|].
  split; [vm_compute; reflexivity|].
  exact (proj1 (can_send_agrees_with_record s "1" 110%float Hmr)).
Defined.

(** X13. Calls made for other users leave a user's entry exactly as it
    was, expired timestamps included. *)
Theorem limiter_users_independent
    (s : SlidingWindowRateLimiter) (calls : list limiter_call)
    (user_id : string) :
  Forall (fun c => limiter_user c <> user_id) calls ->
  history (limiter_after calls s) !! user_id = history s !! user_id.
Proof.
  intros Hcalls. apply (limiter_after_ind
    (fun s' => history s' !! user_id = history s !! user_id)); [done|].
  intros c s' Hin Hs'. rewrite Forall_forall in Hcalls.
  destruct (limiter_after_call_spec c s') as (_ & _ & Hother & _).
  rewrite Hother; [done|]. intros ->. by apply (Hcalls c).
Qed.

Lemma limiter_users_independent_witness :
  let s := mkLimiter 10 1 (<["1"%string := [100%float]]> ∅) in
  let calls := [RecordMessage "2" 500; CanSend "3" 501;
                TimeUntilNext "2" 502]%float in
  Forall (fun c => limiter_user c <> "1"%string) calls /\
  history (limiter_after calls s) !! "1" = Some [100%float].
Proof.
  intros s calls.
  assert (Hcalls : Forall (fun c => limiter_user c <> "1"%string) calls).
  { repeat (constructor; [simpl; discriminate|]). constructor. }
  split; [exact Hcalls|].
  rewrite (limiter_users_independent s calls "1" Hcalls). reflexivity.
Defined.

(** X14. When [can_send_message] answers True, [time_until_next_allowed]
    on the same limiter at the same clock reading returns 0.0 and leaves
    the limiter [can_send_message] leaves. *)
Theorem can_send_means_no_wait
    (s : SlidingWindowRateLimiter) (user_id : string) (now : float) :
  (can_send_message user_id now s).1 = Ok true ->
  time_until_next_allowed user_id now s =
    (Ok 0%float, (can_send_message user_id now s).2).
Proof.
  rewrite can_send_message_run, time_until_next_allowed_run.
  destruct (cleaned_entry s user_id now) as [[dq|]|e]; cbn [fst snd];
    [|done|discriminate].
  intros [= Hb]. by rewrite Hb.
Qed.

Lemma can_send_means_no_wait_witness :
  let s := mkLimiter 10 2 (<["1"%string := [100; 101]%float]> ∅) in
  (can_send_message "1" 110.5%float s).1 = Ok true /\
  time_until_next_allowed "1" 110.5%float s =
    (Ok 0%float, mkLimiter 10 2 (<["1"%string := [101%float]]> ∅)).
Proof.
  intros s.
  assert (Hcan : (can_send_message "1" 110.5%float s).1 = Ok true)
    by (vm_compute; reflexivity).
  split; [exact Hcan|].
  rewrite (can_send_means_no_wait s "1" 110.5%float Hcan).
  vm_compute. reflexivity.
Defined.

(** ** The cleanup *)

(** X15. Cleaning a user's window twice at the same clock reading is
    cleaning it once. *)
Theorem cleanup_window_idempotent
    (s : SlidingWindowRateLimiter) (user_id : string) (now : float) :
  (_cleanup_window user_id now ;; _cleanup_window user_id now) s =
  _cleanup_window user_id now s.
Proof.
  unfold mbind, M_bind. rewrite _cleanup_window_run.
  destruct (cleaned_entry s user_id now) as [entry|e] eqn:He; [|done].
  rewrite _cleanup_window_run.
  assert (He2 : cleaned_entry (store_entry user_id entry s) user_id now
                = Ok entry).
  { destruct entry as [[|t dq]|];
      [unfold cleaned_entry; by rewrite store_entry_lookup| |
       unfold cleaned_entry; by rewrite store_entry_lookup].
    destruct (cleaned_entry_nonempty _ _ _ _ _ He) as [ws Hf].
    rewrite (cleaned_entry_fits _ _ _ ws) by done.
    rewrite (cleaned_entry_fits _ _ _ ws Hf) in He. injection He as He.
    rewrite store_entry_lookup, <- He. f_equal. apply clean_entry_idemp. }
  rewrite He2. f_equal. apply store_entry_same, store_entry_lookup.
Qed.

(** X16. The cleanup leaves every other user's entry, an absent entry and
    an empty deque as they are, and does not raise on them.  On a user's
    non-empty deque it raises OverflowError, leaving the limiter as it
    was, when [window_size] has no float; otherwise it does not raise and
    removes the longest leading run of timestamps t with
    t <= now - window_size, keeping everything behind it, whether expired
    or not, and deleting the entry when nothing is kept. *)
Theorem cleanup_window_drops_expired_prefix
    (s : SlidingWindowRateLimiter) (user_id : string) (now : float) :
  let s' := (_cleanup_window user_id now s).2 in
  (forall u, u <> user_id -> history s' !! u = history s !! u) /\
  (history s !! user_id = None -> _cleanup_window user_id now s = (Ok tt, s)) /\
  (history s !! user_id = Some [] ->
   _cleanup_window user_id now s = (Ok tt, s)) /\
  (forall dq, history s !! user_id = Some dq -> dq <> [] ->
     (float_of_int (window_size s) = Raise OverflowError ->
      _cleanup_window user_id now s = (Raise OverflowError, s)) /\
     (forall ws, float_of_int (window_size s) = Ok ws ->
        let boundary := PrimFloat.sub now ws in
        (_cleanup_window user_id now s).1 = Ok tt /\
        exists expired kept,
          dq = expired ++ kept /\
          Forall (fun t => PrimFloat.leb t boundary = true) expired /\
          match kept with
          | [] => history s' !! user_id = None
          | t :: _ =>
              PrimFloat.leb t boundary = false /\
              history s' !! user_id = Some kept
          end) /\
     ((exists ws, float_of_int (window_size s) = Ok ws) \/
      float_of_int (window_size s) = Raise OverflowError)).
Proof.
  intros s'. subst s'. rewrite _cleanup_window_run.
  split; [|split; [|split]].
  - intros u Hne. destruct (cleaned_entry s user_id now) as [entry|e];
      [|done]. by apply store_entry_lookup_ne.
  - intros Hu. unfold cleaned_entry. rewrite Hu. by rewrite store_entry_same.
  - intros Hu. unfold cleaned_entry. rewrite Hu. by rewrite store_entry_same.
  - intros dq Hu Hne.
    assert (Hdec : (exists ws, float_of_int (window_size s) = Ok ws) \/
                   float_of_int (window_size s) = Raise OverflowError).
    { destruct (float_of_int (window_size s)) as [ws|e] eqn:Hf; [eauto|].
      right. by rewrite (float_of_int_Raise _ _ Hf). }
    split; [|split; [|done]].
    + intros Hf. unfold cleaned_entry. rewrite Hu, Hf.
      by destruct dq.
    + intros ws Hf boundary.
      rewrite (cleaned_entry_fits _ _ _ ws Hf), Hu. cbn [fst snd].
      split; [done|]. rewrite store_entry_lookup.
      destruct (drop_expired_split boundary dq) as (expired & Heq & Hall & Hhd).
      exists expired, (drop_expired boundary dq).
      split; [done|]. split; [done|].
      destruct dq as [|t0 dq0]; [done|]. unfold clean_entry. fold boundary.
      by destruct (drop_expired boundary (t0 :: dq0)).
Qed.

Lemma cleanup_window_drops_expired_prefix_witness :
  let s := mkLimiter 10 5 (<["1"%string := [100; 90; 105; 95]%float]> ∅) in
  let s' := (_cleanup_window "1" 112%float s).2 in
  let big := mkLimiter (10 ^ 400) 5 (<["1"%string := [100%float]]> ∅) in
  history s !! "1" = Some [100; 90; 105; 95]%float /\
  float_of_int (window_size s) = Ok 10%float /\
  history s' !! "1" = Some [105; 95]%float /\
  (exists expired kept,
     [100; 90; 105; 95]%float = expired ++ kept /\
     Forall (fun t => PrimFloat.leb t 102%float = true) expired /\
     history s' !! "1" = Some kept) /\
  _cleanup_window "1" 112%float big = (Raise OverflowError, big).
Proof.
  intros s s' big.
  assert (Hu : history s !! "1" = Some [100; 90; 105; 95]%float)
    by (vm_compute; reflexivity).
  assert (Hf : float_of_int (window_size s) = Ok 10%float)
    by (vm_compute; reflexivity).
  split; [exact Hu|]. split; [exact Hf|].
  split; [vm_compute; reflexivity|].
  destruct (cleanup_window_drops_expired_prefix s "1" 112%float)
    as (_ & _ & _ & Hdq).
  destruct (cleanup_window_drops_expired_prefix big "1" 112%float)
    as (_ & _ & _ & Hbig).
  split.
  - destruct (Hdq _ Hu ltac:(discriminate)) as (_ & Hfits & _).
    destruct (Hfits _ Hf) as (_ & expired & kept & Heq & Hall & Hkept).
    exists expired, kept. split; [exact Heq|]. split; [exact Hall|].
    fold s' in Hkept. destruct kept as [|t kept].
    + assert (Hs' : history s' !! "1" = Some [105; 95]%float)
        by (vm_compute; reflexivity).
      rewrite Hkept in Hs'. discriminate.
    + exact (proj2 Hkept).
  - destruct (Hbig [100%float]) as (Hover & _);
      [vm_compute; reflexivity|discriminate|].
    apply Hover. vm_compute. reflexivity.
Defined.

(** ** The waiting time *)

Lemma float_ltb_leb (x y : float) :
  PrimFloat.ltb x y = true -> PrimFloat.leb x y = true.
Proof.
  rewrite ltb_spec, leb_spec. unfold SFltb, SFleb.
  by destruct (SFcompare _ _) as [[| |]|].
Qed.

(** X17. A waiting time returned by [time_until_next_allowed] is a float
    at or above 0.0: never negative and never a NaN. *)
Theorem time_until_next_allowed_nonnegative
    (s : SlidingWindowRateLimiter) (user_id : string) (now wait : float) :
  (time_until_next_allowed user_id now s).1 = Ok wait ->
  PrimFloat.leb 0%float wait = true.
Proof.
  rewrite time_until_next_allowed_run.
  assert (H0 : PrimFloat.leb 0%float 0%float = true) by reflexivity.
  destruct (cleaned_entry s user_id now) as [[dq|]|e]; cbn [fst];
    [|by intros [= <-]|discriminate].
  destruct (bool_decide _); [by intros [= <-]|].
  destruct dq as [|t dq]; [discriminate|].
  destruct (float_of_int (window_size s)) as [ws|e]; [|discriminate].
  intros [= <-].
  unfold max_0. destruct (PrimFloat.ltb 0%float _) eqn:Hlt; [|done].
  by apply float_ltb_leb.
Qed.

Lemma time_until_next_allowed_nonnegative_witness :
  let s := mkLimiter 10 1 (<["1"%string := [100%float]]> ∅) in
  (time_until_next_allowed "1" 103.25%float s).1 = Ok 6.75%float /\
  PrimFloat.leb 0%float 6.75%float = true /\
  (time_until_next_allowed "1" 50%float s).1 = Ok 60%float.
Proof.
  intros s.
  assert (Hrun : (time_until_next_allowed "1" 103.25%float s).1 = Ok 6.75%float)
    by (vm_compute; reflexivity).
  split; [exact Hrun|]. split; [|vm_compute; reflexivity].
  exact (time_until_next_allowed_nonnegative s "1" 103.25%float 6.75%float Hrun).
Defined.

(** * The workload generator *)

Lemma randint_Ok a b g :
  a <= b ->
  exists x g', randint a b g = (Ok x, g') /\ a <= x <= b.
Proof.
  intros Hab. unfold randint. destruct (Z.ltb_spec b a); [lia|].
  unfold next_int. run_M. do 2 eexists. split; [reflexivity|].
  pose proof (Z.mod_pos_bound (int_draws g (int_pos g)) (b - a + 1)). lia.
Qed.

Lemma randint_Raise a b g :
  b < a -> randint a b g = (Raise ValueError, g).
Proof. intros Hab. unfold randint. by destruct (Z.ltb_spec b a); [|lia]. Qed.

Lemma choice_Ok seq g :
  seq <> [] -> exists x g', choice seq g = (Ok x, g') /\ x ∈ seq.
Proof.
  destruct seq as [|x0 seq]; [done|]. intros _.
  unfold choice, next_int, mbind, M_bind, mret, M_ret.
  do 2 eexists. split; [reflexivity|].
  apply list_elem_of_In, nth_In.
  pose proof (Z.mod_pos_bound (int_draws g (int_pos g))
                (Z.of_nat (length (x0 :: seq)))) as Hm.
  cbn [length] in *. lia.
Qed.

Lemma half_bounds n : 1 <= n -> 0 <= n / 2 <= n - 1.
Proof.
  intros Hn. split; [apply Z.div_pos; lia|].
  assert (n / 2 < n) by (apply Z.div_lt; lia). lia.
Qed.

Lemma make_hot_Ok count n g :
  1 <= n ->
  exists hot g',
    make_hot count n g = (Ok hot, g') /\
    length hot = count /\
    Forall (fun lr : Z * Z => 0 <= lr.1 <= lr.2 /\ lr.2 < n) hot.
Proof.
  intros Hn. pose proof (half_bounds n Hn) as Hhalf. revert g.
  induction count as [|count IH]; intros g; cbn [make_hot].
  - exists [], g. by repeat split.
  - unfold mbind, M_bind.
    destruct (randint_Ok 0 (n / 2) g) as (l & g1 & -> & Hl); [lia|].
    destruct (randint_Ok (n / 2) (n - 1) g1) as (r & g2 & -> & Hr); [lia|].
    destruct (IH g2) as (hot & g3 & -> & Hlen & Hall).
    exists ((l, r) :: hot), g3. split; [done|]. split; [simpl; by f_equal|].
    constructor; [simpl; lia|done].
Qed.

Lemma make_queries_loop_step count n hot p_hot p_update queries g :
  make_queries_loop (S count) n hot p_hot p_update queries g =
    let g1 := after_float g in
    if PrimFloat.ltb (float_draws g (float_pos g)) p_update then
      match randint 0 (n - 1) g1 with
      | (Ok idx, g2) =>
          match randint 1 100 g2 with
          | (Ok val, g3) =>
              make_queries_loop count n hot p_hot p_update
                (queries ++ [("Update"%string, idx, val)]) g3
          | (Raise e, g3) => (Raise e, g3)
          end
      | (Raise e, g2) => (Raise e, g2)
      end
    else
      let g2 := after_float g1 in
      if PrimFloat.ltb (float_draws g1 (float_pos g1)) p_hot then
        match choice hot g2 with
        | (Ok lr, g3) =>
            make_queries_loop count n hot p_hot p_update
              (queries ++ [("Range"%string, lr.1, lr.2)]) g3
        | (Raise e, g3) => (Raise e, g3)
        end
      else
        match randint 0 (n - 1) g2 with
        | (Ok l, g3) =>
            match randint l (n - 1) g3 with
            | (Ok r, g4) =>
                make_queries_loop count n hot p_hot p_update
                  (queries ++ [("Range"%string, l, r)]) g4
            | (Raise e, g4) => (Raise e, g4)
            end
        | (Raise e, g3) => (Raise e, g3)
        end.
Proof.
  cbn [make_queries_loop]. unfold mbind, M_bind, random, after_float.
  cbn beta iota zeta.
  destruct (PrimFloat.ltb _ p_update); [done|].
  cbn [float_draws float_pos int_draws int_pos].
  by destruct (PrimFloat.ltb _ p_hot).
Qed.

Lemma make_queries_loop_cases count n hot p_hot p_update queries0 g :
  1 <= n ->
  Forall (fun lr : Z * Z => 0 <= lr.1 <= lr.2 /\ lr.2 < n) hot ->
  Forall (generated_query n) queries0 ->
  (exists queries g',
     make_queries_loop count n hot p_hot p_update queries0 g = (Ok queries, g') /\
     length queries = (length queries0 + count)%nat /\
     Forall (generated_query n) queries) \/
  (hot = [] /\
   exists g',
     make_queries_loop count n hot p_hot p_update queries0 g =
       (Raise IndexError, g')).
Proof.
  intros Hn Hhot. revert queries0 g.
  induction count as [|count IH]; intros queries0 g Hq0.
  - left. exists queries0, g. split; [done|]. split; [lia|done].
  - assert (Hnext : forall q0 g0,
              generated_query n q0 ->
              (exists queries g',
                 make_queries_loop count n hot p_hot p_update
                   (queries0 ++ [q0]) g0 = (Ok queries, g') /\
                 length queries = (length queries0 + S count)%nat /\
                 Forall (generated_query n) queries) \/
              (hot = [] /\
               exists g',
                 make_queries_loop count n hot p_hot p_update
                   (queries0 ++ [q0]) g0 = (Raise IndexError, g'))).
    { intros q0 g0 Hgen.
      destruct (IH (queries0 ++ [q0]) g0)
        as [(queries & g' & Hrun & Hlen & Hall)|Hraise]; [| |by right].
      - apply Forall_app. split; [done|]. by constructor.
      - left. exists queries, g'. split; [done|]. split; [|done].
        rewrite Hlen, length_app. simpl. lia. }
    rewrite make_queries_loop_step. cbn zeta.
    destruct (PrimFloat.ltb _ p_update).
    + destruct (randint_Ok 0 (n - 1) (after_float g))
        as (idx & g2 & -> & Hidx); [lia|].
      destruct (randint_Ok 1 100 g2) as (val & g3 & -> & Hval); [lia|].
      apply Hnext. split; [unfold query_in_range; simpl; lia|].
      right. simpl. by split.
    + destruct (PrimFloat.ltb _ p_hot).
      * destruct hot as [|lr0 hot'] eqn:Hh.
        { right. split; [done|]. eexists. reflexivity. }
        destruct (choice_Ok (lr0 :: hot') (after_float (after_float g)))
          as (lr & g3 & -> & Hin); [done|].
        rewrite Forall_forall in Hhot. specialize (Hhot lr Hin).
        apply Hnext. split; [unfold query_in_range; simpl; lia|]. by left.
      * destruct (randint_Ok 0 (n - 1) (after_float (after_float g)))
          as (l & g3 & -> & Hl); [lia|].
        destruct (randint_Ok l (n - 1) g3) as (r & g4 & -> & Hr); [lia|].
        apply Hnext. split; [unfold query_in_range; simpl; lia|]. by left.
Qed.

Lemma make_queries_cases n q hot_pool p_hot p_update g :
  1 <= n ->
  (exists queries g',
     make_queries n q hot_pool p_hot p_update g = (Ok queries, g') /\
     length queries = Z.to_nat q /\
     Forall (generated_query n) queries) \/
  (hot_pool <= 0 /\
   exists g',
     make_queries n q hot_pool p_hot p_update g = (Raise IndexError, g')).
Proof.
  intros Hn. unfold make_queries, mbind, M_bind.
  destruct (make_hot_Ok (Z.to_nat hot_pool) n g Hn)
    as (hot & g1 & -> & Hlen & Hhot).
  destruct (make_queries_loop_cases (Z.to_nat q) n hot p_hot p_update [] g1
              Hn Hhot ltac:(constructor))
    as [(queries & g' & Hrun & Hlenq & Hall)|(Hnil & g' & Hrun)].
  - left. exists queries, g'. by repeat split.
  - right. split; [|eauto]. subst hot. simpl in Hlen. lia.
Qed.

(** X18. For an array length n of 1 or more, whatever the random draws
    are: when [make_queries] returns, it returns exactly q queries (none
    for q <= 0), each typed "Range" with 0 <= left <= right < n or typed
    "Update" with 0 <= index < n and a value within 1..100; with
    [hot_pool] of 1 or more it always returns; and the only exception it
    can raise is the IndexError of choosing from an empty hot list, with
    [hot_pool] of 0 or less. *)
Theorem make_queries_in_range
    (n q hot_pool : Z) (p_hot p_update : float) (g : Random) :
  1 <= n ->
  (forall queries g',
     make_queries n q hot_pool p_hot p_update g = (Ok queries, g') ->
     length queries = Z.to_nat q /\
     Forall (query_in_range n) queries /\
     Forall (fun qu : Query =>
               qu.1.1 = "Range"%string \/
               (qu.1.1 = "Update"%string /\ 1 <= qu.2 <= 100)) queries) /\
  (1 <= hot_pool ->
   exists queries g',
     make_queries n q hot_pool p_hot p_update g = (Ok queries, g')) /\
  (forall e g',
     make_queries n q hot_pool p_hot p_update g = (Raise e, g') ->
     e = IndexError /\ hot_pool <= 0).
Proof.
  intros Hn.
  destruct (make_queries_cases n q hot_pool p_hot p_update g Hn)
    as [(queries & g' & Hrun & Hlen & Hall)|(Hhp & g' & Hrun)];
    rewrite Hrun.
  - split; [|split].
    + intros queries' g'' [= <- <-]. split; [done|].
      unfold generated_query in Hall. rewrite Forall_forall in Hall.
      split; apply Forall_forall; intros qu Hqu; by apply Hall.
    + eauto.
    + discriminate.
  - split; [|split].
    + discriminate.
    + lia.
    + by intros e g'' [= <- <-].
Qed.

Lemma make_queries_in_range_witness :
  let run := make_queries 5 5 2 0.75%float 0.25%float sample_random in
  let queries : list Query :=
    [("Update", 1, 39); ("Range", 0, 2); ("Range", 2, 2); ("Range", 1, 2);
     ("Range", 0, 3)]%string in
  1 <= 5 /\
  run = (Ok queries, run.2) /\
  length queries = Z.to_nat 5 /\
  Forall (query_in_range 5) queries.
Proof.
  intros run queries.
  assert (Hn : 1 <= 5) by lia. split; [exact Hn|].
  assert (Hrun : run = (Ok queries, run.2)) by (vm_compute; reflexivity).
  split; [exact Hrun|].
  destruct (proj1
    (make_queries_in_range 5 5 2 0.75%float 0.25%float sample_random Hn)
    _ _ Hrun) as (Hlen & Hall & _).
  split; [exact Hlen|exact Hall].
Defined.

(** X19. For an array length n of 0 or less and a [hot_pool] of 1 or more,
    [make_queries] raises ValueError whatever the draws are: the first hot
    range already asks [random.randint] for an integer of an empty range. *)
Theorem make_queries_empty_array
    (n q hot_pool : Z) (p_hot p_update : float) (g : Random) :
  n <= 0 -> 1 <= hot_pool ->
  (make_queries n q hot_pool p_hot p_update g).1 = Raise ValueError.
Proof.
  intros Hn Hhp. unfold make_queries.
  destruct (Z.to_nat hot_pool) as [|count] eqn:Hc; [lia|].
  cbn [make_hot]. unfold mbind, M_bind.
  destruct (decide (n / 2 < 0)) as [Hneg|Hnonneg].
  - by rewrite randint_Raise.
  - destruct (randint_Ok 0 (n / 2) g) as (l & g1 & -> & _); [lia|].
    rewrite randint_Raise; [done|].
    assert (n / 2 <= 0) by (apply Z.div_le_upper_bound; lia). lia.
Qed.

Lemma make_queries_empty_array_witness :
  0 <= 0 /\ 1 <= 1 /\
  (make_queries 0 5 1 0.75%float 0.25%float sample_random).1 =
    Raise ValueError /\
  (make_queries (-3) 5 1 0.75%float 0.25%float sample_random).1 =
    Raise ValueError.
Proof.
  assert (H0 : 0 <= 0) by lia. assert (H1 : 1 <= 1) by lia.
  split; [exact H0|]. split; [exact H1|]. split.
  - exact (make_queries_empty_array 0 5 1 0.75%float 0.25%float
             sample_random H0 H1).
  - apply make_queries_empty_array; lia.
Defined.

(** X20. The benchmark compares like with like: on any workload
    [make_queries] returns for an array of length n >= 1, whatever the
    draws, a cached run with capacity 1 or more and an uncached run both
    complete, compute the same [total_sink] and leave the same array. *)
Theorem generated_workload_same_answers
    (n q hot_pool k_capacity : Z) (p_hot p_update : float) (g g' : Random)
    (queries : list Query) (arr : list Z) :
  1 <= n -> Z.of_nat (length arr) = n -> 1 <= k_capacity ->
  make_queries n q hot_pool p_hot p_update g = (Ok queries, g') ->
  exists total_sink w',
    run_with_cache_loop queries 0
      (mkWorld arr (mkLRUCache k_capacity [] 0 0)) = (Ok total_sink, w') /\
    run_no_cache_loop queries 0 arr = (Ok total_sink, array w') /\
    run_with_cache queries k_capacity arr =
      (Ok (mkRunStats (hits (cache w')) (misses (cache w'))), array w') /\
    run_no_cache queries arr = (Ok (mkRunStats 0 0), array w').
Proof.
  intros Hn Hlen Hk Hgen.
  assert (Hq : Forall (query_in_range (Z.of_nat (length arr))) queries).
  { destruct (make_queries_cases n q hot_pool p_hot p_update g Hn)
      as [(queries' & g'' & Hrun & _ & Hall)|(_ & g'' & Hrun)];
      rewrite Hrun in Hgen; [|discriminate].
    injection Hgen as <- <-. rewrite Hlen.
    rewrite Forall_forall in Hall. apply Forall_forall.
    intros qu Hqu. by apply Hall. }
  assert (Hinit : LRUCache_init (K := Key) k_capacity =
                    Ok (mkLRUCache k_capacity [] 0 0)).
  { unfold LRUCache_init. by destruct (Z.leb_spec k_capacity 0); [lia|]. }
  destruct (run_loops_same_sink arr k_capacity queries 0
              (mkWorld arr (mkLRUCache k_capacity [] 0 0)))
    as (s & w' & Hc & Hno); [by apply reach_init|done|].
  exists s, w'. split; [done|]. split; [done|].
  unfold run_with_cache, run_no_cache, mbind, M_bind.
  rewrite Hinit, Hc. simpl in Hno. by rewrite Hno.
Qed.

Lemma generated_workload_same_answers_witness :
  let run := make_queries 5 5 2 0.75%float 0.25%float sample_random in
  let queries : list Query :=
    [("Update", 1, 39); ("Range", 0, 2); ("Range", 2, 2); ("Range", 1, 2);
     ("Range", 0, 3)]%string in
  let arr := [4; 8; 15; 16; 23] in
  1 <= 5 /\ Z.of_nat (length arr) = 5 /\ 1 <= 2 /\
  run = (Ok queries, run.2) /\
  run_with_cache queries 2 arr = (Ok (mkRunStats 0 4), [4; 39; 15; 16; 23]) /\
  exists total_sink w',
    run_with_cache_loop queries 0 (mkWorld arr (mkLRUCache 2 [] 0 0)) =
      (Ok total_sink, w') /\
    run_no_cache_loop queries 0 arr = (Ok total_sink, array w').
Proof.
  intros run queries arr.
  assert (Hn : 1 <= 5) by lia.
  assert (Hlen : Z.of_nat (length arr) = 5) by reflexivity.
  assert (Hk : 1 <= 2) by lia.
  assert (Hrun : run = (Ok queries, run.2)) by (vm_compute; reflexivity).
  split; [exact Hn|]. split; [exact Hlen|]. split; [exact Hk|].
  split; [exact Hrun|]. split; [reflexivity|].
  destruct (generated_workload_same_answers 5 5 2 2 0.75%float 0.25%float
              sample_random run.2 queries arr Hn Hlen Hk Hrun)
    as (s & w' & Hc & Hno & _).
  exists s, w'. split; [exact Hc|exact Hno].
Defined.
